(** * Charticulator: the chart renderer ([src/core/graphics/renderer/index.ts])

    A shallow embedding of [facetRows] and of the [ChartRenderer] class
    ([renderGlyphMarks], [renderChart], [render]), and the properties of the
    scene graph they build.

    Conventions of the embedding.
    - JavaScript numbers are IEEE-754 doubles: Rocq's primitive [float].
    - [null] and [undefined] are the [None] of an [option].
    - Code that can throw lives in a small store-passing monad ([Render]);
      the store holds what the chart state manager exposes, the number of
      scene nodes allocated so far and the log of the calls made to the
      drawing capabilities.
    - The drawing capabilities (mark, plot-segment, chart-element and chart
      classes) belong to other modules; the renderer receives them through
      its manager, and they are parameters here: arbitrary functions on the
      world that may return, throw, and change the world. *)

From Stdlib Require Import Floats.
From stdpp Require Import base option list gmap strings.

(** * Helpers of [core/common] *)

Module Common.

(** Modelled from the spec: [zipArray] of [core/common] is not among the
    sources at hand. The spec pairs "each (mark, markState)" and "each
    (element, elementState)" of two index-aligned arrays; the pairs run up to
    the end of the shorter array. *)
Fixpoint zipArray {A B : Type} (a : list A) (b : list B) : list (A * B) :=
  match a, b with
  | x :: a', y :: b' => (x, y) :: zipArray a' b'
  | _, _ => []
  end.

(** Modelled from the spec: [transpose] of [core/common] is not among the
    sources at hand. "Transpose the resulting instance-by-mark matrix into a
    mark-by-instance matrix (layer k = the k-th slot from every instance, in
    instance order)". The number of layers is read off the first row, and a
    row that is too short contributes [undefined]; a matrix without rows has
    no layer. *)
Definition transpose {A : Type} (undefined : A) (matrix : list (list A))
  : list (list A) :=
  match matrix with
  | [] => []
  | row0 :: _ =>
      map (fun j => map (fun row => nth j row undefined) matrix)
          (seq 0 (length row0))
  end.

(** Modelled from the spec: [getById] of [core/common] is not among the
    sources at hand. "resolve its glyph template by id": the first object of
    the array with that [_id]; an unknown id resolves to nothing. *)
Fixpoint getById {T : Type} (_id : T -> string) (array : list T) (id : string)
  : option T :=
  match array with
  | [] => None
  | x :: array' => if decide (_id x = id) then Some x else getById _id array' id
  end.

End Common.

(** The class [MultistringHashMap] of [core/common] is not among the sources
    at hand; its operations are modelled from the spec's design note on
    composite keys. *)
Module MultistringHashMap.
Section Map.
Context {K V : Type} `{EqDecision K}.

(** Modelled from the spec: the class [MultistringHashMap] is missing. "use
    an ordered-tuple key with structural equality [...] as the map key,
    preserving first-seen insertion order": an association list in insertion
    order, keyed by tuples. *)
Definition t : Type := list (list K * V).

(** Modelled from the spec: [new MultistringHashMap()] is missing; a map
    without entry. *)
Definition empty : t := [].

(** Modelled from the spec: [MultistringHashMap.get] is missing; the value
    under the key that is structurally equal, [undefined] when there is
    none. *)
Fixpoint get (key : list K) (m : t) : option V :=
  match m with
  | [] => None
  | (k, v) :: m' => if decide (k = key) then Some v else get key m'
  end.

(** Modelled from the spec: [MultistringHashMap.has] is missing; whether
    [get] finds an entry. *)
Definition has (key : list K) (m : t) : bool :=
  match get key m with Some _ => true | None => false end.

(** Modelled from the spec: [MultistringHashMap.set] is missing. "the group
    for a given tuple is created the first time that tuple appears": a new
    key goes last, and a key that is present keeps its place. *)
Fixpoint set (key : list K) (v : V) (m : t) : t :=
  match m with
  | [] => [(key, v)]
  | (k, x) :: m' =>
      if decide (k = key) then (k, v) :: m' else (k, x) :: set key v m'
  end.

(** The array stored under a key is shared with the map: what
    [facets.get(key).push(index)] does to the array returned by [get], it
    does to the entry. *)
Fixpoint update (f : V -> V) (key : list K) (m : t) : t :=
  match m with
  | [] => []
  | (k, x) :: m' =>
      if decide (k = key) then (k, f x) :: m' else (k, x) :: update f key m'
  end.

(** Modelled from the spec: [MultistringHashMap.values] is missing. "the
    returned sequence orders groups by their first-seen tuple": the values in
    insertion order. *)
Definition values (m : t) : list V := map snd m.

End Map.
Global Arguments t : clear implicits.
End MultistringHashMap.

(** * Row faceting *)

(** A [Dataset.Row] maps column names to scalar values; the scalar type is
    opaque, with the equality the facet map compares tuples by. *)
Section Faceting.
Context {Scalar : Type} `{EqDecision Scalar}.

#[local] Abbreviation Row := (gmap string Scalar).
#[local] Abbreviation Facets :=
  (MultistringHashMap.t (option Scalar) (list nat)).

(** [columns.map((c) => row[c] as string)]: reading a property of the
    [undefined] row throws a TypeError ([None]); a column the row does not
    have reads as [undefined]. With no column the row is not read. *)
Definition facetValues (row : option Row) (columns : list string)
  : option (list (option Scalar)) :=
  mapM (fun c => match row with
                 | Some r => Some (r !! c)
                 | None => None
                 end) columns.

(** The body of [for (const index of indices)]. *)
Fixpoint facetRows_loop (rows : list Row) (columns : list string)
    (indices : list nat) (facets : Facets) : option Facets :=
  match indices with
  | [] => Some facets
  | index :: rest =>
      let row := rows !! index in
      match facetValues row columns with
      | None => None
      | Some values =>
          facetRows_loop rows columns rest
            (if MultistringHashMap.has values facets
             then MultistringHashMap.update (fun group => group ++ [index])
                    values facets
             else MultistringHashMap.set values [index] facets)
      end
  end.

(** [facetRows]. [columns] is [None] when the argument is [null] or left
    out; the result is [None] when the loop throws. *)
Definition facetRows (rows : list Row) (indices : list nat)
    (columns : option (list string)) : option (list (list nat)) :=
  match columns with
  | None => Some [indices]
  | Some columns =>
      match facetRows_loop rows columns indices MultistringHashMap.empty with
      | None => None
      | Some facets => Some (MultistringHashMap.values facets)
      end
  end.

(** The value of row [index] at column [c], as the loop reads it. *)
Definition cell (rows : list Row) (index : nat) (c : string) : option Scalar :=
  match rows !! index with
  | Some r => r !! c
  | None => None
  end.

(** The value tuple of row [index] over [columns]. *)
Definition tuple (rows : list Row) (columns : list string) (index : nat)
  : list (option Scalar) :=
  map (cell rows index) columns.

End Faceting.

(** The distinct elements of a list, each at the place of its first
    occurrence. *)
Fixpoint firstSeen {K : Type} `{EqDecision K} (l : list K) : list K :=
  match l with
  | [] => []
  | k :: l' => k :: filter (fun k' => k' <> k) (firstSeen l')
  end.

(** The facet map once the loop has gone through [done], for indices keyed
    by [key]: one entry per distinct key in order of first appearance,
    holding the indices with that key in traversal order. *)
Definition facetsOf {K : Type} `{EqDecision K} (key : nat -> list K)
    (done : list nat) : MultistringHashMap.t K (list nat) :=
  map (fun k => (k, filter (fun i => key i = k) done))
      (firstSeen (map key done)).

(** * The specification and state trees ([core/specification]) *)

(** The types of [core/specification] are not among the sources at hand.
    The records below are modelled from the spec's data model and hold the
    fields the renderer reads, under the names it reads them by. *)
Module Specification.

(** "Geometric attributes are floating-point numbers", keyed by attribute
    name. *)
#[local] Abbreviation AttributeMap := (gmap string float).

(** Modelled from the spec: the type of [object.properties] is missing.
    "each carrying a visibility flag and element-specific properties", with
    the three flags the renderer reads: "enable-tooltip/selection/context-menu
    flags". *)
Record ObjectProperties := {
  visible : bool;
  enableTooltips : bool;
  enableContextMenu : bool;
  enableSelection : bool;
}.

(** Modelled from the spec: [Specification.Object] and its subtypes
    [ChartElement], [PlotSegment] and [Element] (a mark) are missing. A chart
    element or a mark, with its identity, its class kind and its properties;
    "a plot-segment references a glyph template id", [glyph], which the
    renderer reads on plot segments only. *)
Record Object := {
  _id : string;
  classID : string;
  properties : ObjectProperties;
  glyph : string;
}.

Module Glyph.
(** Modelled from the spec: [Specification.Glyph] is missing. A glyph
    template is "an ordered sequence of marks". *)
Record t := { _id : string; marks : list Object }.
End Glyph.

Module Chart.
(** Modelled from the spec: [Specification.Chart] is missing. "an ordered
    sequence of chart elements" and "a separate collection of glyph
    templates". *)
Record t := { elements : list Object; glyphs : list Glyph.t }.
End Chart.

(** Modelled from the spec: [Specification.ObjectState] and [MarkState] are
    missing. The state of a mark, "one mark state per mark within a glyph
    state", with its geometric attributes; also what a chart element's state
    is seen as when it is handed to [getMarkClass]. *)
Record ObjectState := { attributes : AttributeMap }.

Module GlyphState.
(** Modelled from the spec: [Specification.GlyphState] is missing. "one
    glyph state per instantiated glyph occurrence", with "its own geometric
    attributes", its mark states and "the emphasized flag carried by the
    glyph state". *)
Record t := {
  attributes : AttributeMap;
  marks : list ObjectState;
  emphasized : option bool;
}.
End GlyphState.

Module PlotSegmentState.
(** Modelled from the spec: [Specification.ChartElementState] and
    [PlotSegmentState] are missing. The state of a chart element. "A
    plot-segment's element state additionally holds, per glyph instance: the
    row indices it represents"; the renderer reads [glyphs] and
    [dataRowIndices] on plot segments only. *)
Record t := {
  attributes : AttributeMap;
  glyphs : list GlyphState.t;
  dataRowIndices : list (list nat);
}.
End PlotSegmentState.

Module ChartState.
(** Modelled from the spec: [Specification.ChartState] is missing. "one
    element state per chart element (array-aligned by index, not by
    identity)". *)
Record t := { elements : list PlotSegmentState.t }.
End ChartState.

(** An element state passed where a [MarkState] is expected. *)
Definition asObjectState (s : PlotSegmentState.t) : ObjectState :=
  {| attributes := PlotSegmentState.attributes s |}.

End Specification.

(** * The scene graph ([core/graphics/elements], [coordinate_system]) *)

(** The scene-graph types, [makeGroup] and the coordinate systems are not
    among the sources at hand; they are modelled from the spec's data model
    and interfaces. *)
Module Graphics.

(** Modelled from the spec: [Point] of [core/common] is missing. "a 2-D
    offset". *)
Record Point := { x : float; y : float }.

(** Modelled from the spec: the type of [group.transform] is missing. The
    "transform descriptor" of a coordinate system. *)
Record RigidTransform := { tx : float; ty : float; angle : float }.

(** Modelled from the spec: the type of [element.selectable] is missing.
    "selectable metadata (owning plot-segment reference, glyph index, the row
    indices it represents, and three independent boolean capability flags:
    tooltips-enabled, context-menu-enabled, selection-enabled)". *)
Record Selectable := {
  plotSegment : Specification.Object;
  glyphIndex : nat;
  rowIndices : option (list nat);
  enableTooltips : bool;
  enableContextMenu : bool;
  enableSelection : bool;
}.

(** Modelled from the spec: [Element] and [Group] of [graphics/elements]
    are missing. A node is a primitive drawn by a capability or a group; a
    group has "an ordered list of child nodes (nodes may be null)", "an
    optional transform", "an optional identity key" and "optional selectable
    metadata". [oid] is the identity of the group as a JavaScript object: its
    rank among the scene nodes, in allocation order. *)
Inductive Element :=
| Primitive (shape : string) (sel : option Selectable)
| GroupElement (g : Group)
with Group :=
| Build_Group (oid : nat) (elements : list (option Element))
    (transform : option RigidTransform) (key : option string)
    (sel : option Selectable).

Definition oid (g : Group) : nat :=
  match g with Build_Group o _ _ _ _ => o end.
Definition elements (g : Group) : list (option Element) :=
  match g with Build_Group _ es _ _ _ => es end.
Definition transform (g : Group) : option RigidTransform :=
  match g with Build_Group _ _ t _ _ => t end.
Definition key (g : Group) : option string :=
  match g with Build_Group _ _ _ k _ => k end.


(** [g.transform = t] *)
Definition set_transform (t : RigidTransform) (g : Group) : Group :=
  match g with Build_Group o es _ k s => Build_Group o es (Some t) k s end.

(** [g.key = k] *)
Definition set_key (k : string) (g : Group) : Group :=
  match g with Build_Group o es t _ s => Build_Group o es t (Some k) s end.

(** [g.elements.push(e)] *)
Definition push (e : option Element) (g : Group) : Group :=
  match g with Build_Group o es t k s => Build_Group o (es ++ [e]) t k s end.

(** [e.selectable = s] *)
Definition set_selectable (s : Selectable) (e : Element) : Element :=
  match e with
  | Primitive shape _ => Primitive shape (Some s)
  | GroupElement (Build_Group o es t k _) =>
      GroupElement (Build_Group o es t k (Some s))
  end.

(** A slot of a mark-slot sequence, as a child of a group. *)
Definition child (slot : option Group) : option Element :=
  match slot with Some g => Some (GroupElement g) | None => None end.

(** Modelled from the spec: [CoordinateSystem] is missing. It "supplies a
    base transform per system kind". *)
Record CoordinateSystem := {
  kind : string;
  getBaseTransform : RigidTransform;
}.

(** Modelled from the spec: [CartesianCoordinates] is missing. The
    coordinate system [new CartesianCoordinates(origin)]; its base transform
    is taken to be the move to the origin, and the renderer never reads it. *)
Definition CartesianCoordinates (origin : Point) : CoordinateSystem :=
  {| kind := "cartesian";
     getBaseTransform := {| tx := x origin; ty := y origin; angle := 0 |} |}.

End Graphics.

(** [v as number], as the subtraction reads it: [undefined] is not a
    number. *)
Definition number (v : option float) : float :=
  match v with Some n => n | None => nan end.

(** * The renderer's monad: a store, exceptions, and a log of calls *)

Section Renderer.
(** The dataset and the private state of the collaborators are opaque. *)
Context {Dataset Ext : Type}.

(** What the chart state manager exposes ([manager.dataset],
    [manager.chart], [manager.chartState]), the number of scene nodes
    allocated so far, and the state private to the collaborators. *)
Record World := {
  dataset : Dataset;
  chart : Specification.Chart.t;
  chartState : Specification.ChartState.t;
  allocated : nat;
  ext : Ext;
}.

(** How a call ends: with a value, or with an exception that ends the
    render call. *)
Inductive Outcome (A : Type) :=
| Returned (a : A)
| Thrown.
Global Arguments Returned {A} a.
Global Arguments Thrown {A}.

(** A method of a collaborator: it may return or throw, and may change the
    world. [Thrown] is an exception of the collaborator or the TypeError of
    using a result it failed to provide. *)
Definition Capability (A : Type) : Type := World -> Outcome A * World.

(** The calls the renderer makes to its collaborators, with their
    arguments. *)
Inductive Call :=
| CallGetChartClass (state : Specification.ChartState.t)
| CallGetBackgroundGraphics
| CallGetMarkClass (state : Specification.ObjectState)
| CallMarkGetGraphics (object : Specification.Object)
    (coordinateSystem : Graphics.CoordinateSystem) (offset : Graphics.Point)
    (glyphIndex : option nat) (emphasized : option bool)
| CallGetPlotSegmentClass (state : Specification.PlotSegmentState.t)
| CallGetCoordinateSystem
| CallGetPlotSegmentGraphics (glyphGraphics : Graphics.Group)
| CallGetPlotSegmentBackgroundGraphics
| CallGetChartElementClass (state : Specification.PlotSegmentState.t)
| CallChartElementGetGraphics
| CallAfterRendered.

(** The world and the calls made so far, oldest first. *)
Record Store := { world : World; calls : list Call }.

(** A piece of the renderer's code. *)
Definition Render (A : Type) : Type := Store -> Outcome A * Store.

Definition ret {A : Type} (a : A) : Render A := fun s => (Returned a, s).

Definition bind {A B : Type} (m : Render A) (k : A -> Render B) : Render B :=
  fun s =>
    match m s with
    | (Returned a, s') => k a s'
    | (Thrown, s') => (Thrown, s')
    end.

(** A TypeError raised by the renderer's own code. *)
Definition throw {A : Type} : Render A := fun s => (Thrown, s).

(** A call to a collaborator: the call is logged, then the capability runs
    on the world. *)
Definition invoke {A : Type} (call : Call) (c : Capability A) : Render A :=
  fun s =>
    let '(r, w) := c (world s) in
    (r, {| world := w; calls := calls s ++ [call] |}).

(** The store once one more scene node is allocated. *)
Definition afterAllocation (s : Store) : Store :=
  let w := world s in
  {| world := {| dataset := dataset w; chart := chart w;
                 chartState := chartState w;
                 allocated := S (allocated w); ext := ext w |};
     calls := calls s |}.

(** The allocation of a scene node: its identity is its rank. *)
Definition allocate : Render nat :=
  fun s => (Returned (allocated (world s)), afterAllocation s).

End Renderer.

Global Arguments World : clear implicits.
Global Arguments Store : clear implicits.
Global Arguments Capability : clear implicits.
Global Arguments Render : clear implicits.

Declare Scope render_scope.
Delimit Scope render_scope with render.
Notation "x <- m ;; k" := (bind m (fun x => k))
  (at level 100, m at next level, right associativity) : render_scope.

Section Loops.
Context {Dataset Ext : Type}.
#[local] Abbreviation Render' := (Render Dataset Ext).

(** [array.map(f)] and [for (const x of array)] with a body that collects:
    left to right, and an exception ends the loop. *)
Fixpoint mapR {A B : Type} (f : A -> Render' B) (l : list A)
  : Render' (list B) :=
  match l with
  | [] => ret []
  | a :: l' => (b <- f a ;; bs <- mapR f l' ;; ret (b :: bs))%render
  end.

(** [for (const x of array)] with a body that updates a local variable. *)
Fixpoint foldR {A B : Type} (f : B -> A -> Render' B) (l : list A) (b : B)
  : Render' B :=
  match l with
  | [] => ret b
  | a :: l' => (b' <- f b a ;; foldR f l' b')%render
  end.

End Loops.

(** [array.entries()] *)
Definition entries {A : Type} (l : list A) : list (nat * A) :=
  zip (seq 0 (length l)) l.

(** * The collaborators ([core/prototypes]) *)

Section Prototypes.
Context {Dataset Ext : Type}.
#[local] Abbreviation Capability' := (Capability Dataset Ext).

(** Modelled from the spec: [MarkClass] is missing. The mark drawing
    capability, "getGraphics(coordinateSystem, offset, glyphIndex|null,
    stateManager, emphasized?) -> primitive|null"; the state manager it
    receives is the world it runs on. [object] is the object the class
    belongs to, whose properties hold the three flags. *)
Record MarkClass := {
  object : Specification.Object;
  getGraphics :
    Graphics.CoordinateSystem -> Graphics.Point -> option nat ->
    option bool -> Capability' (option Graphics.Element);
}.

(** Modelled from the spec: [ChartClass] is missing. The chart drawing
    capability, "getBackgroundGraphics() -> primitive|null". *)
Record ChartClass := {
  getBackgroundGraphics : Capability' (option Graphics.Element);
}.

(** Modelled from the spec: [PlotSegmentClass] is missing. The plot-segment
    drawing capability: "getCoordinateSystem() -> CoordinateSystem",
    "getPlotSegmentGraphics(glyphLayerGroup, stateManager) -> primitive" and
    "getPlotSegmentBackgroundGraphics(stateManager) -> primitive". *)
Record PlotSegmentClass := {
  getCoordinateSystem : Capability' Graphics.CoordinateSystem;
  getPlotSegmentGraphics : Graphics.Group -> Capability' Graphics.Element;
  getPlotSegmentBackgroundGraphics : Capability' Graphics.Element;
}.

(** Modelled from the spec: [ChartElementClass] is missing. The
    chart-element drawing capability, "getGraphics(stateManager) ->
    primitive". *)
Record ChartElementClass := {
  getElementGraphics : Capability' Graphics.Element;
}.

(** Modelled from the spec: [ChartStateManager] is missing. The state
    manager "resolves a drawable capability for a mark/chart-element/
    plot-segment given its state (getMarkClass, getPlotSegmentClass,
    getChartElementClass, getChartClass)"; the dataset, the chart and the
    chart state it exposes are fields of the [World]. *)
Record ChartStateManager := {
  getChartClass : Specification.ChartState.t -> Capability' ChartClass;
  getMarkClass : Specification.ObjectState -> Capability' MarkClass;
  getPlotSegmentClass :
    Specification.PlotSegmentState.t -> Capability' PlotSegmentClass;
  getChartElementClass :
    Specification.PlotSegmentState.t -> Capability' ChartElementClass;
}.

(** [RenderEvents]. [render] tests [afterRendered] before it calls it, so
    the callback may be missing. *)
Record RenderEvents := { afterRendered : option (Capability' unit) }.

(** The fields of a [ChartRenderer]. *)
Record ChartRenderer := {
  manager : ChartStateManager;
  renderEvents : option RenderEvents;
}.

End Prototypes.

Global Arguments MarkClass : clear implicits.
Global Arguments ChartClass : clear implicits.
Global Arguments PlotSegmentClass : clear implicits.
Global Arguments ChartElementClass : clear implicits.
Global Arguments ChartStateManager : clear implicits.
Global Arguments RenderEvents : clear implicits.
Global Arguments ChartRenderer : clear implicits.

(** * The renderer *)

Section ChartRenderer.
Context {Dataset Ext : Type}.
#[local] Abbreviation RenderM := (Render Dataset Ext).

(** [Prototypes.isType(classID, type)], of [core/prototypes]. *)
Variable isType : string -> string -> bool.

Variable this : ChartRenderer Dataset Ext.

Local Open Scope render_scope.

(** Modelled from the spec: [makeGroup] of [graphics/elements] is missing.
    A new group with the given children and nothing else: no transform, no
    key, no selectable metadata. *)
Definition makeGroup (elements : list (option Graphics.Element))
  : RenderM Graphics.Group :=
  oid <- allocate ;;
  ret (Graphics.Build_Group oid elements None None None).

(** The callback of [zipArray(glyph.marks, state.marks).map(...)] in
    [renderGlyphMarks] (lines 74-99). *)
Definition renderGlyphMarks_slot
    (plotSegment : Specification.Object)
    (plotSegmentState : Specification.PlotSegmentState.t)
    (coordinateSystem : Graphics.CoordinateSystem)
    (offset : Graphics.Point)
    (state : Specification.GlyphState.t)
    (index : nat)
    (pair : Specification.Object * Specification.ObjectState)
  : RenderM (option Graphics.Group) :=
  let '(mark, markState) := pair in
  if negb (Specification.visible (Specification.properties mark)) then
    ret None
  else
    cls <- invoke (CallGetMarkClass markState)
             (getMarkClass (manager this) markState) ;;
    g <- invoke
           (CallMarkGetGraphics (object cls) coordinateSystem offset
              (Some index) (Specification.GlyphState.emphasized state))
           (getGraphics cls coordinateSystem offset (Some index)
              (Specification.GlyphState.emphasized state)) ;;
    match g with
    | Some g =>
        let g :=
          Graphics.set_selectable
            {| Graphics.plotSegment := plotSegment;
               Graphics.glyphIndex := index;
               Graphics.rowIndices :=
                 Specification.PlotSegmentState.dataRowIndices
                   plotSegmentState !! index;
               Graphics.enableTooltips :=
                 Specification.enableTooltips
                   (Specification.properties (object cls));
               Graphics.enableContextMenu :=
                 Specification.enableContextMenu
                   (Specification.properties (object cls));
               Graphics.enableSelection :=
                 Specification.enableSelection
                   (Specification.properties (object cls)) |} g in
        group <- makeGroup [Some g] ;;
        ret (Some group)
    | None => ret None
    end.

(** [renderGlyphMarks]. The glyph comes from [getById], and reading
    [glyph.marks] of no glyph throws. *)
Definition renderGlyphMarks
    (plotSegment : Specification.Object)
    (plotSegmentState : Specification.PlotSegmentState.t)
    (coordinateSystem : Graphics.CoordinateSystem)
    (offset : Graphics.Point)
    (glyph : option Specification.Glyph.t)
    (state : Specification.GlyphState.t)
    (index : nat)
  : RenderM (list (option Graphics.Group)) :=
  match glyph with
  | None => throw
  | Some glyph =>
      mapR (renderGlyphMarks_slot plotSegment plotSegmentState
              coordinateSystem offset state index)
        (Common.zipArray (Specification.Glyph.marks glyph)
           (Specification.GlyphState.marks state))
  end.

(** The body of the loop over [plotSegmentState.glyphs.entries()] in
    [renderChart] (lines 143-161): the mark-slot sequence of one glyph
    instance. Reading [glyphState.marks[0].attributes] of a glyph state
    without marks throws. *)
Definition renderChart_glyph
    (plotSegment : Specification.Object)
    (plotSegmentState : Specification.PlotSegmentState.t)
    (coordinateSystem : Graphics.CoordinateSystem)
    (mark : option Specification.Glyph.t)
    (entry : nat * Specification.GlyphState.t)
  : RenderM (list (option Graphics.Group)) :=
  let '(glyphIndex, glyphState) := entry in
  match Specification.GlyphState.marks glyphState !! 0 with
  | None => throw
  | Some mark0 =>
      let anchorX := number (Specification.attributes mark0 !! "x") in
      let anchorY := number (Specification.attributes mark0 !! "y") in
      let offsetX :=
        (number (Specification.GlyphState.attributes glyphState !! "x")
         - anchorX)%float in
      let offsetY :=
        (number (Specification.GlyphState.attributes glyphState !! "y")
         - anchorY)%float in
      renderGlyphMarks plotSegment plotSegmentState coordinateSystem
        {| Graphics.x := offsetX; Graphics.y := offsetY |}
        mark glyphState glyphIndex
  end.

(** [glyphArrays] after the loop (lines 142-161). *)
Definition renderChart_glyphArrays
    (plotSegment : Specification.Object)
    (plotSegmentState : Specification.PlotSegmentState.t)
    (coordinateSystem : Graphics.CoordinateSystem)
    (mark : option Specification.Glyph.t)
  : RenderM (list (list (option Graphics.Group))) :=
  mapR (renderChart_glyph plotSegment plotSegmentState coordinateSystem mark)
    (entries (Specification.PlotSegmentState.glyphs plotSegmentState)).

(** [gGlyphs] (lines 163-165): one group per layer, under the glyph-layer
    group that carries the base transform. *)
Definition renderChart_glyphLayers
    (coordinateSystem : Graphics.CoordinateSystem)
    (glyphArrays : list (list (option Graphics.Group)))
  : RenderM Graphics.Group :=
  glyphElements <-
    mapR (fun x => makeGroup (map Graphics.child x))
      (Common.transpose None glyphArrays) ;;
  gGlyphs <-
    makeGroup (map (fun g => Some (Graphics.GroupElement g)) glyphElements) ;;
  ret (Graphics.set_transform (Graphics.getBaseTransform coordinateSystem)
         gGlyphs).

(** The plot-segment branch of the loop of [renderChart] (lines 133-180),
    up to [graphics.push(gElement)]. *)
Definition renderChart_plotSegment
    (chart : Specification.Chart.t)
    (element : Specification.Object)
    (elementState : Specification.PlotSegmentState.t)
  : RenderM Graphics.Group :=
  let plotSegment := element in
  let plotSegmentState := elementState in
  let mark :=
    Common.getById Specification.Glyph._id (Specification.Chart.glyphs chart)
      (Specification.glyph plotSegment) in
  plotSegmentClass <-
    invoke (CallGetPlotSegmentClass plotSegmentState)
      (getPlotSegmentClass (manager this) plotSegmentState) ;;
  coordinateSystem <-
    invoke CallGetCoordinateSystem (getCoordinateSystem plotSegmentClass) ;;
  glyphArrays <-
    renderChart_glyphArrays plotSegment plotSegmentState coordinateSystem
      mark ;;
  gGlyphs <- renderChart_glyphLayers coordinateSystem glyphArrays ;;
  g <- invoke (CallGetPlotSegmentGraphics gGlyphs)
         (getPlotSegmentGraphics plotSegmentClass gGlyphs) ;;
  gBackgroundElements <- makeGroup [] ;;
  plotSegmentBackgroundElements <-
    invoke CallGetPlotSegmentBackgroundGraphics
      (getPlotSegmentBackgroundGraphics plotSegmentClass) ;;
  let gBackgroundElements :=
    Graphics.push (Some plotSegmentBackgroundElements) gBackgroundElements in
  gElement <- makeGroup [] ;;
  let gElement :=
    Graphics.push (Some (Graphics.GroupElement gBackgroundElements))
      gElement in
  let gElement := Graphics.push (Some g) gElement in
  let gElement := Graphics.set_key (Specification._id element) gElement in
  ret gElement.

(** The mark branch (lines 181-193). *)
Definition renderChart_mark
    (element : Specification.Object)
    (elementState : Specification.PlotSegmentState.t)
  : RenderM Graphics.Group :=
  let cs :=
    Graphics.CartesianCoordinates {| Graphics.x := 0; Graphics.y := 0 |} in
  gElement <- makeGroup [] ;;
  elementClass <-
    invoke (CallGetMarkClass (Specification.asObjectState elementState))
      (getMarkClass (manager this)
         (Specification.asObjectState elementState)) ;;
  g <- invoke
         (CallMarkGetGraphics (object elementClass) cs
            {| Graphics.x := 0; Graphics.y := 0 |} None None)
         (getGraphics elementClass cs
            {| Graphics.x := 0; Graphics.y := 0 |} None None) ;;
  let gElement := Graphics.push g gElement in
  let gElement := Graphics.set_key (Specification._id element) gElement in
  ret gElement.

(** The last branch (lines 194-201): any other chart element. *)
Definition renderChart_chartElement
    (element : Specification.Object)
    (elementState : Specification.PlotSegmentState.t)
  : RenderM Graphics.Group :=
  gElement <- makeGroup [] ;;
  elementClass <-
    invoke (CallGetChartElementClass elementState)
      (getChartElementClass (manager this) elementState) ;;
  g <- invoke CallChartElementGetGraphics (getElementGraphics elementClass) ;;
  let gElement := Graphics.push (Some g) gElement in
  let gElement := Graphics.set_key (Specification._id element) gElement in
  ret gElement.

(** The body of [for (const [element, elementState] of elementsAndStates)]
    (lines 128-202), on the array [graphics] built so far. *)
Definition renderChart_element
    (chart : Specification.Chart.t)
    (graphics : list (option Graphics.Element))
    (pair : Specification.Object * Specification.PlotSegmentState.t)
  : RenderM (list (option Graphics.Element)) :=
  let '(element, elementState) := pair in
  if negb (Specification.visible (Specification.properties element)) then
    ret graphics
  else if isType (Specification.classID element) "plot-segment" then
    gElement <- renderChart_plotSegment chart element elementState ;;
    ret (graphics ++ [Some (Graphics.GroupElement gElement)])
  else if isType (Specification.classID element) "mark" then
    gElement <- renderChart_mark element elementState ;;
    ret (graphics ++ [Some (Graphics.GroupElement gElement)])
  else
    gElement <- renderChart_chartElement element elementState ;;
    ret (graphics ++ [Some (Graphics.GroupElement gElement)]).

(** [renderChart] *)
Definition renderChart
    (dataset : Dataset)
    (chart : Specification.Chart.t)
    (chartState : Specification.ChartState.t)
  : RenderM Graphics.Group :=
  let graphics : list (option Graphics.Element) := [] in
  chartClass <-
    invoke (CallGetChartClass chartState)
      (getChartClass (manager this) chartState) ;;
  bg <- invoke CallGetBackgroundGraphics (getBackgroundGraphics chartClass) ;;
  let graphics :=
    match bg with
    | Some bg => graphics ++ [Some bg]
    | None => graphics
    end in
  linkGroup <- makeGroup [] ;;
  let graphics := graphics ++ [Some (Graphics.GroupElement linkGroup)] in
  let elementsAndStates :=
    Common.zipArray (Specification.Chart.elements chart)
      (Specification.ChartState.elements chartState) in
  graphics <- foldR (renderChart_element chart) elementsAndStates graphics ;;
  makeGroup graphics.

(** [this.manager.dataset] and the like: a read of the manager's field. *)
Definition read {A : Type} (field : World Dataset Ext -> A) : RenderM A :=
  fun s => (Returned (field (world s)), s).

(** [render] *)
Definition render : RenderM Graphics.Group :=
  dataset <- read dataset ;;
  chart <- read chart ;;
  chartState <- read chartState ;;
  group <- renderChart dataset chart chartState ;;
  match renderEvents this with
  | Some events =>
      match afterRendered events with
      | Some afterRendered =>
          _ <- invoke CallAfterRendered afterRendered ;;
          ret group
      | None => ret group
      end
  | None => ret group
  end.

End ChartRenderer.

(** * Specifications of computations *)

Section Triples.
Context {Dataset Ext : Type}.

(** [sat R Q m]: from any store, [m] moves the store along [R], whether it
    returns or throws, and a value it returns satisfies [Q]. *)
Definition sat {A : Type} (R : relation (Store Dataset Ext)) (Q : A -> Prop)
    (m : Render Dataset Ext A) : Prop :=
  forall s,
    R s (m s).2 /\
    match (m s).1 with Returned a => Q a | Thrown => True end.

(** No constraint on the stores. *)
Definition anyStep : relation (Store Dataset Ext) := fun _ _ => True.

(** The calls logged from [s] to [s'] all satisfy [P]. *)
Definition logged (P : Call -> Prop) : relation (Store Dataset Ext) :=
  fun s s' => exists cs, calls s' = calls s ++ cs /\ Forall P cs.

(** The inputs of a render call, as the manager holds them. *)
Definition inputs (w : World Dataset Ext)
  : Dataset * Specification.Chart.t * Specification.ChartState.t :=
  (dataset w, chart w, chartState w).

(** From [s] to [s'] the inputs are the same and no scene node was freed. *)
Definition framed : relation (Store Dataset Ext) :=
  fun s s' =>
    inputs (world s') = inputs (world s) /\
    allocated (world s) <= allocated (world s').

(** A capability that leaves the inputs alone, frees no scene node, and
    returns values in [Q]. *)
Definition respects {A : Type} (Q : A -> Prop) (c : Capability Dataset Ext A)
  : Prop :=
  forall w,
    inputs (c w).2 = inputs w /\
    allocated w <= allocated (c w).2 /\
    match (c w).1 with Returned a => Q a | Thrown => True end.

Definition MarkClass_respects (cls : MarkClass Dataset Ext) : Prop :=
  forall coordinateSystem offset glyphIndex emphasized,
    respects (fun _ => True)
      (getGraphics cls coordinateSystem offset glyphIndex emphasized).

Definition ChartClass_respects (cls : ChartClass Dataset Ext) : Prop :=
  respects (fun _ => True) (getBackgroundGraphics cls).

Definition PlotSegmentClass_respects (cls : PlotSegmentClass Dataset Ext)
  : Prop :=
  respects (fun _ => True) (getCoordinateSystem cls) /\
  (forall g, respects (fun _ => True) (getPlotSegmentGraphics cls g)) /\
  respects (fun _ => True) (getPlotSegmentBackgroundGraphics cls).

Definition ChartElementClass_respects (cls : ChartElementClass Dataset Ext)
  : Prop :=
  respects (fun _ => True) (getElementGraphics cls).

(** The collaborators of a renderer leave the inputs alone: the classes its
    manager resolves, and its completion callback. *)
Definition ChartRenderer_respects (this : ChartRenderer Dataset Ext) : Prop :=
  (forall st, respects ChartClass_respects (getChartClass (manager this) st)) /\
  (forall st, respects MarkClass_respects (getMarkClass (manager this) st)) /\
  (forall st,
      respects PlotSegmentClass_respects
        (getPlotSegmentClass (manager this) st)) /\
  (forall st,
      respects ChartElementClass_respects
        (getChartElementClass (manager this) st)) /\
  (forall events callback,
      renderEvents this = Some events ->
      afterRendered events = Some callback ->
      respects (fun _ => True) callback).

(** The completion callback of a renderer, when one was supplied. *)
Definition completionCallback (this : ChartRenderer Dataset Ext)
  : option (Capability Dataset Ext unit) :=
  match renderEvents this with
  | Some events => afterRendered events
  | None => None
  end.

End Triples.

Section Stepwise.
Context {Dataset Ext : Type}.

(** Every step the renderer takes outside its own code moves the store
    along [R]: the allocation of a scene node, and each call to a class the
    manager resolves, where a resolved class answers for its own methods. *)
Definition stepwise (R : relation (Store Dataset Ext))
    (this : ChartRenderer Dataset Ext) : Prop :=
  sat R (fun _ => True) allocate /\
  (forall st,
      sat R
        (fun cls =>
           sat R (fun _ => True)
             (invoke CallGetBackgroundGraphics (getBackgroundGraphics cls)))
        (invoke (CallGetChartClass st) (getChartClass (manager this) st))) /\
  (forall st,
      sat R
        (fun cls =>
           forall coordinateSystem offset glyphIndex emphasized,
             sat R (fun _ => True)
               (invoke
                  (CallMarkGetGraphics (object cls) coordinateSystem offset
                     glyphIndex emphasized)
                  (getGraphics cls coordinateSystem offset glyphIndex
                     emphasized)))
        (invoke (CallGetMarkClass st) (getMarkClass (manager this) st))) /\
  (forall st,
      sat R
        (fun cls =>
           sat R (fun _ => True)
             (invoke CallGetCoordinateSystem (getCoordinateSystem cls)) /\
           (forall g,
               sat R (fun _ => True)
                 (invoke (CallGetPlotSegmentGraphics g)
                    (getPlotSegmentGraphics cls g))) /\
           sat R (fun _ => True)
             (invoke CallGetPlotSegmentBackgroundGraphics
                (getPlotSegmentBackgroundGraphics cls)))
        (invoke (CallGetPlotSegmentClass st)
           (getPlotSegmentClass (manager this) st))) /\
  (forall st,
      sat R
        (fun cls =>
           sat R (fun _ => True)
             (invoke CallChartElementGetGraphics (getElementGraphics cls)))
        (invoke (CallGetChartElementClass st)
           (getChartElementClass (manager this) st))).

End Stepwise.


(** * A small chart, for the examples *)

Module Fixture.
Import Specification.

(** A class is of a type when the type is a prefix of its id, as in
    ["plot-segment.cartesian"] and ["mark.rect"]. *)
Definition isType (classID type : string) : bool := String.prefix type classID.

Definition props (visible flags : bool) : ObjectProperties :=
  {| visible := visible; enableTooltips := flags;
     enableContextMenu := flags; enableSelection := flags |}.

Definition rect : Object :=
  {| _id := "rect"; classID := "mark.rect"; properties := props true true;
     glyph := "" |}.
Definition caption : Object :=
  {| _id := "caption"; classID := "mark.text"; properties := props false true;
     glyph := "" |}.
Definition dot : Object :=
  {| _id := "dot"; classID := "mark.symbol"; properties := props true true;
     glyph := "" |}.

Definition glyph1 : Glyph.t :=
  {| Glyph._id := "glyph1"; Glyph.marks := [rect; caption; dot] |}.

Definition plot : Object :=
  {| _id := "plot"; classID := "plot-segment.cartesian";
     properties := props true false; glyph := "glyph1" |}.
Definition title : Object :=
  {| _id := "title"; classID := "mark.text"; properties := props true false;
     glyph := "" |}.
Definition legend : Object :=
  {| _id := "legend"; classID := "legend.categorical";
     properties := props false false; glyph := "" |}.
Definition guide : Object :=
  {| _id := "guide"; classID := "guide.guide"; properties := props true false;
     glyph := "" |}.

Definition chart1 : Chart.t :=
  {| Chart.elements := [plot; title; legend; guide];
     Chart.glyphs := [glyph1] |}.

Definition at_ (x y : float) : gmap string float :=
  {[ "x" := x; "y" := y ]}.

(** The mark states of a glyph instance anchored at (5,5); the state of the
    symbol has no position. *)
Definition markStates : list ObjectState :=
  [ {| attributes := at_ 5 5 |}; {| attributes := at_ 6 6 |};
    {| attributes := ∅ |} ].

Definition glyphState0 : GlyphState.t :=
  {| GlyphState.attributes := at_ 12 9; GlyphState.marks := markStates;
     GlyphState.emphasized := None |}.
Definition glyphState1 : GlyphState.t :=
  {| GlyphState.attributes := at_ 20 5; GlyphState.marks := markStates;
     GlyphState.emphasized := Some true |}.

Definition plotState : PlotSegmentState.t :=
  {| PlotSegmentState.attributes := ∅;
     PlotSegmentState.glyphs := [glyphState0; glyphState1];
     PlotSegmentState.dataRowIndices := [[0; 2]; [1]] |}.

(** The state of a plot segment whose data has no row. *)
Definition emptyPlotState : PlotSegmentState.t :=
  {| PlotSegmentState.attributes := ∅; PlotSegmentState.glyphs := [];
     PlotSegmentState.dataRowIndices := [] |}.

Definition plainState : PlotSegmentState.t :=
  {| PlotSegmentState.attributes := ∅; PlotSegmentState.glyphs := [];
     PlotSegmentState.dataRowIndices := [] |}.

Definition chartState1 : ChartState.t :=
  {| ChartState.elements := [plotState; plainState; plainState; plainState] |}.

(** The collaborators count the calls they serve in their private state. *)
Definition serve {A : Type} (a : A) : Capability unit nat A :=
  fun w =>
    (Returned a,
     {| dataset := dataset w; chart := chart w; chartState := chartState w;
        allocated := allocated w; ext := S (ext w) |}).

(** A mark class draws a rectangle for a state that has a position, and
    nothing for a state without one. *)
Definition markClass (state : ObjectState) : MarkClass unit nat :=
  {| object := rect;
     getGraphics := fun _ _ _ _ =>
       serve (match attributes state !! "x" with
              | Some _ => Some (Graphics.Primitive "rect" None)
              | None => None
              end) |}.

Definition chartClass : ChartClass unit nat :=
  {| getBackgroundGraphics :=
       serve (Some (Graphics.Primitive "background" None)) |}.

Definition origin : Graphics.Point := {| Graphics.x := 0; Graphics.y := 0 |}.

Definition plotSegmentClass : PlotSegmentClass unit nat :=
  {| getCoordinateSystem := serve (Graphics.CartesianCoordinates origin);
     getPlotSegmentGraphics := fun g => serve (Graphics.GroupElement g);
     getPlotSegmentBackgroundGraphics :=
       serve (Graphics.Primitive "axes" None) |}.

Definition chartElementClass : ChartElementClass unit nat :=
  {| getElementGraphics := serve (Graphics.Primitive "guide" None) |}.

Definition manager1 : ChartStateManager unit nat :=
  {| getChartClass := fun _ => serve chartClass;
     getMarkClass := fun state => serve (markClass state);
     getPlotSegmentClass := fun _ => serve plotSegmentClass;
     getChartElementClass := fun _ => serve chartElementClass |}.

Definition renderer : ChartRenderer unit nat :=
  {| manager := manager1;
     renderEvents := Some {| afterRendered := Some (serve tt) |} |}.

(** The same renderer without a completion callback. *)
Definition silentRenderer : ChartRenderer unit nat :=
  {| manager := manager1; renderEvents := None |}.

Definition world1 : World unit nat :=
  {| dataset := tt; chart := chart1; chartState := chartState1;
     allocated := 0; ext := 0 |}.

Definition store1 : Store unit nat := {| world := world1; calls := [] |}.

(** A chart without elements. *)
Definition emptyStore : Store unit nat :=
  {| world :=
       {| dataset := tt;
          chart := {| Chart.elements := []; Chart.glyphs := [] |};
          chartState := {| ChartState.elements := [] |};
          allocated := 0; ext := 0 |};
     calls := [] |}.

(** The rows of the faceting example. *)
Definition rows1 : list (gmap string string) :=
  [ {[ "c" := "a" ]}; {[ "c" := "b" ]}; {[ "c" := "a" ]} ].

End Fixture.

(** * Plot segments that can be drawn, and collaborators that answer *)


(** What the renderer's own code needs of a plot segment and its state: a
    glyph template under the plot segment's glyph id as soon as there is a
    glyph instance, and a first mark state in every glyph instance. *)
Definition drawable (chart : Specification.Chart.t)
    (plotSegment : Specification.Object)
    (state : Specification.PlotSegmentState.t) : Prop :=
  (Specification.PlotSegmentState.glyphs state = [] \/
   is_Some
     (Common.getById Specification.Glyph._id (Specification.Chart.glyphs chart)
        (Specification.glyph plotSegment))) /\
  Forall (fun glyphState => Specification.GlyphState.marks glyphState <> [])
    (Specification.PlotSegmentState.glyphs state).

(** The two ways a plot segment fails that need: glyph instances of an
    unknown glyph template, or a glyph instance without mark state. *)
Definition undrawable (chart : Specification.Chart.t)
    (plotSegment : Specification.Object)
    (state : Specification.PlotSegmentState.t) : Prop :=
  (Specification.PlotSegmentState.glyphs state <> [] /\
   Common.getById Specification.Glyph._id (Specification.Chart.glyphs chart)
     (Specification.glyph plotSegment) = None) \/
  (exists glyphState,
      glyphState ∈ Specification.PlotSegmentState.glyphs state /\
      Specification.GlyphState.marks glyphState = []).

Section Answers.
Context {Dataset Ext : Type}.

(** [returns Q m]: from any store, [m] returns, with a value in [Q]. *)
Definition returns {A : Type} (Q : A -> Prop) (m : Render Dataset Ext A)
  : Prop :=
  forall s, exists a s', m s = (Returned a, s') /\ Q a.

(** A capability that returns on every world, with a value in [Q]. *)
Definition answers {A : Type} (Q : A -> Prop) (c : Capability Dataset Ext A)
  : Prop :=
  forall w, exists a w', c w = (Returned a, w') /\ Q a.

Definition MarkClass_answers (cls : MarkClass Dataset Ext) : Prop :=
  forall coordinateSystem offset glyphIndex emphasized,
    answers (fun _ => True)
      (getGraphics cls coordinateSystem offset glyphIndex emphasized).

Definition ChartClass_answers (cls : ChartClass Dataset Ext) : Prop :=
  answers (fun _ => True) (getBackgroundGraphics cls).

Definition PlotSegmentClass_answers (cls : PlotSegmentClass Dataset Ext)
  : Prop :=
  answers (fun _ => True) (getCoordinateSystem cls) /\
  (forall g, answers (fun _ => True) (getPlotSegmentGraphics cls g)) /\
  answers (fun _ => True) (getPlotSegmentBackgroundGraphics cls).

Definition ChartElementClass_answers (cls : ChartElementClass Dataset Ext)
  : Prop :=
  answers (fun _ => True) (getElementGraphics cls).

(** No collaborator of the renderer throws: its manager resolves every
    class, the classes draw, and the completion callback returns. *)
Definition ChartRenderer_answers (this : ChartRenderer Dataset Ext) : Prop :=
  (forall st, answers ChartClass_answers (getChartClass (manager this) st)) /\
  (forall st, answers MarkClass_answers (getMarkClass (manager this) st)) /\
  (forall st,
      answers PlotSegmentClass_answers
        (getPlotSegmentClass (manager this) st)) /\
  (forall st,
      answers ChartElementClass_answers
        (getChartElementClass (manager this) st)) /\
  (forall callback,
      completionCallback this = Some callback ->
      answers (fun _ => True) callback).

End Answers.

(** * Two more charts, for the examples *)

Module Fixture2.
Import Specification.

(** The plot segment of the example, in a chart that lost its glyph
    templates. *)
Definition brokenStore : Store unit nat :=
  {| world :=
       {| dataset := tt;
          chart :=
            {| Chart.elements := [Fixture.plot]; Chart.glyphs := [] |};
          chartState := {| ChartState.elements := [Fixture.plotState] |};
          allocated := 0; ext := 0 |};
     calls := [] |}.

(** A chart whose only element is the invisible legend. *)
Definition hiddenChart : Chart.t :=
  {| Chart.elements := [Fixture.legend]; Chart.glyphs := [] |}.

Definition hiddenChartState : ChartState.t :=
  {| ChartState.elements := [Fixture.plainState] |}.

(** Rows with two columns. *)
Definition rows2 : list (gmap string string) :=
  [ {[ "c" := "a"; "d" := "x" ]}; {[ "c" := "b"; "d" := "x" ]};
    {[ "c" := "a"; "d" := "y" ]}; {[ "c" := "a"; "d" := "x" ]} ].

End Fixture2.

(** * The nodes of a scene tree, and who allocates them *)

(** The identities of the groups of a scene tree, the root first. A
    primitive has none of its own. *)
Fixpoint Element_nodes (e : Graphics.Element) : list nat :=
  match e with
  | Graphics.Primitive _ _ => []
  | Graphics.GroupElement g => Group_nodes g
  end
with Group_nodes (g : Graphics.Group) : list nat :=
  match g with
  | Graphics.Build_Group o es _ _ _ =>
      o :: concat
             (map (fun c : option Graphics.Element =>
                     match c with Some e => Element_nodes e | None => [] end)
                es)
  end.

(** The nodes under a child of a group, which may be null. *)
Definition child_nodes (c : option Graphics.Element) : list nat :=
  match c with Some e => Element_nodes e | None => [] end.

(** The nodes under a sequence of children. *)
Definition children_nodes (es : list (option Graphics.Element)) : list nat :=
  concat (map child_nodes es).

(** The nodes under a sequence of mark slots. *)
Definition slots_nodes (slots : list (option Graphics.Group)) : list nat :=
  concat (map (fun slot => child_nodes (Graphics.child slot)) slots).

Section Allocation.
Context {Dataset Ext : Type}.

(** Nodes that collaborators may bring from elsewhere. *)
Variable foreign : nat -> Prop.

(** A capability whose result holds only nodes allocated during the call,
    nodes it was handed ([given]) and foreign nodes. *)
Definition allocates {A : Type} (nodes : A -> list nat) (given : list nat)
    (c : Capability Dataset Ext A) : Prop :=
  forall w o,
    match c w with
    | (Returned a, w') =>
        o ∈ nodes a ->
        allocated w <= o < allocated w' \/ o ∈ given \/ foreign o
    | (Thrown, _) => True
    end.

(** A capability whose result, when it returns one, is in [Q]. *)
Definition resolves {A : Type} (Q : A -> Prop) (c : Capability Dataset Ext A)
  : Prop :=
  forall w, match (c w).1 with Returned a => Q a | Thrown => True end.

Definition MarkClass_allocates (cls : MarkClass Dataset Ext) : Prop :=
  forall coordinateSystem offset glyphIndex emphasized,
    allocates child_nodes []
      (getGraphics cls coordinateSystem offset glyphIndex emphasized).

Definition ChartClass_allocates (cls : ChartClass Dataset Ext) : Prop :=
  allocates child_nodes [] (getBackgroundGraphics cls).

(** The graphics of a plot segment may hold the glyph-layer group that the
    class was handed. *)
Definition PlotSegmentClass_allocates (cls : PlotSegmentClass Dataset Ext)
  : Prop :=
  (forall g,
      allocates Element_nodes (Group_nodes g) (getPlotSegmentGraphics cls g)) /\
  allocates Element_nodes [] (getPlotSegmentBackgroundGraphics cls).

Definition ChartElementClass_allocates (cls : ChartElementClass Dataset Ext)
  : Prop :=
  allocates Element_nodes [] (getElementGraphics cls).

(** The classes that the manager of a renderer resolves return, apart from
    foreign nodes, only nodes that they allocate for the call. *)
Definition ChartRenderer_allocates (this : ChartRenderer Dataset Ext) : Prop :=
  (forall st,
      resolves ChartClass_allocates (getChartClass (manager this) st)) /\
  (forall st, resolves MarkClass_allocates (getMarkClass (manager this) st)) /\
  (forall st,
      resolves PlotSegmentClass_allocates
        (getPlotSegmentClass (manager this) st)) /\
  (forall st,
      resolves ChartElementClass_allocates
        (getChartElementClass (manager this) st)).

(** [made Q nodes given m]: when the nodes of [given] were allocated since
    some point [lo] or are foreign, so are the nodes of what [m] returns;
    [m] frees no node, and returns values in [Q]. *)
Definition made {A : Type} (Q : A -> Prop) (nodes : A -> list nat)
    (given : list nat) (m : Render Dataset Ext A) : Prop :=
  forall lo s a s',
    lo <= allocated (world s) ->
    (forall o, o ∈ given -> lo <= o < allocated (world s) \/ foreign o) ->
    m s = (Returned a, s') ->
    allocated (world s) <= allocated (world s') /\
    Q a /\
    forall o, o ∈ nodes a -> lo <= o < allocated (world s') \/ foreign o.

End Allocation.

(** * A later store and an allocating chart class, for the examples *)

Module Fixture3.
Import Specification.


(** The example chart, once five scene nodes were allocated. *)
Definition laterStore : Store unit nat :=
  {| world :=
       {| dataset := tt; chart := Fixture.chart1;
          chartState := Fixture.chartState1; allocated := 5; ext := 0 |};
     calls := [] |}.

(** A chart class that allocates a group for the background it returns. *)
Definition groupingChartClass : ChartClass unit nat :=
  {| getBackgroundGraphics := fun w =>
       (Returned
          (Some (Graphics.GroupElement
                   (Graphics.Build_Group (allocated w)
                      [Some (Graphics.Primitive "background" None)]
                      None None None))),
        {| dataset := dataset w; chart := chart w;
           chartState := chartState w; allocated := S (allocated w);
           ext := S (ext w) |}) |}.

(** The renderer of the example, with that chart class. *)
Definition groupingRenderer : ChartRenderer unit nat :=
  {| manager :=
       {| getChartClass := fun _ => Fixture.serve groupingChartClass;
          getMarkClass := getMarkClass Fixture.manager1;
          getPlotSegmentClass := getPlotSegmentClass Fixture.manager1;
          getChartElementClass := getChartElementClass Fixture.manager1 |};
     renderEvents := renderEvents Fixture.renderer |}.

End Fixture3.

(** * Properties of the helpers *)

Lemma filter_none {A : Type} (P : A -> Prop) `{forall x, Decision (P x)}
    (l : list A) :
  (forall x, x ∈ l -> ~ P x) -> filter P l = [].
Proof.
  induction l as [|a l IH]; intros Hl; [done|].
  rewrite filter_cons_False by (apply Hl; left).
  apply IH. intros x Hx. apply Hl. by right.
Qed.

Section FirstSeen.
Context {K : Type} `{EqDecision K}.

Lemma elem_of_firstSeen (l : list K) (k : K) : k ∈ firstSeen l <-> k ∈ l.
Proof.
  revert k; induction l as [|a l IH]; intros k; simpl; [done|].
  rewrite !elem_of_cons, list_elem_of_filter, IH.
  destruct (decide (k = a)); tauto.
Qed.

Lemma NoDup_firstSeen (l : list K) : NoDup (firstSeen l).
Proof.
  induction l as [|a l IH]; simpl; [constructor|].
  constructor.
  - rewrite list_elem_of_filter. by intros [Hne _].
  - by apply NoDup_filter.
Qed.

Lemma firstSeen_snoc (l : list K) (k : K) :
  firstSeen (l ++ [k]) =
  if decide (k ∈ l) then firstSeen l else firstSeen l ++ [k].
Proof.
  induction l as [|a l IH]; simpl; [done|].
  rewrite IH. destruct (decide (k ∈ l)) as [Hin|Hin].
  - rewrite decide_True by (by right). done.
  - destruct (decide (k = a)) as [->|Hne].
    + rewrite decide_True by (by left).
      rewrite filter_app, filter_cons_False, filter_nil, app_nil_r
        by (by intros Hne).
      done.
    + rewrite decide_False by (rewrite elem_of_cons; by intros [?|?]).
      rewrite filter_app, filter_cons_True, filter_nil by done. done.
Qed.

End FirstSeen.

Section FacetMap.
Context {K : Type} `{EqDecision K}.
Variable key : nat -> list K.

Lemma get_tabulated (g : list K -> list nat) (ks : list (list K)) k :
  MultistringHashMap.get k (map (fun k' => (k', g k')) ks) =
  if decide (k ∈ ks) then Some (g k) else None.
Proof.
  induction ks as [|a ks IH]; simpl; [done|].
  destruct (decide (a = k)) as [->|Hne].
  - by rewrite decide_True by (by left).
  - rewrite IH. destruct (decide (k ∈ ks)).
    + by rewrite decide_True by (by right).
    + by rewrite decide_False by (rewrite elem_of_cons; by intros [?|?]).
Qed.

Lemma set_tabulated (g : list K -> list nat) (ks : list (list K)) k v :
  k ∉ ks ->
  MultistringHashMap.set k v (map (fun k' => (k', g k')) ks) =
  map (fun k' => (k', g k')) ks ++ [(k, v)].
Proof.
  induction ks as [|a ks IH]; simpl; intros Hk; [done|].
  rewrite not_elem_of_cons in Hk. destruct Hk as [Hne Hk].
  rewrite decide_False by done. by rewrite IH.
Qed.

Lemma update_tabulated (f : list nat -> list nat) (g : list K -> list nat)
    (ks : list (list K)) k :
  NoDup ks ->
  MultistringHashMap.update f k (map (fun k' => (k', g k')) ks) =
  map (fun k' => (k', if decide (k' = k) then f (g k') else g k')) ks.
Proof.
  induction 1 as [|a ks Ha Hnd IH]; simpl; [done|].
  destruct (decide (a = k)) as [->|Hne].
  - f_equal. apply map_ext_in. intros k' Hk'.
    rewrite decide_False; [done|]. intros ->. apply Ha.
    by apply list_elem_of_In.
  - by rewrite IH.
Qed.

Lemma facetsOf_step (done : list nat) (index : nat) :
  (if MultistringHashMap.has (key index) (facetsOf key done)
   then MultistringHashMap.update (fun group => group ++ [index])
          (key index) (facetsOf key done)
   else MultistringHashMap.set (key index) [index] (facetsOf key done))
  = facetsOf key (done ++ [index]).
Proof.
  unfold MultistringHashMap.has, facetsOf.
  rewrite get_tabulated, map_app. simpl.
  rewrite firstSeen_snoc.
  destruct (decide (key index ∈ firstSeen (map key done))) as [Hin|Hin].
  - rewrite decide_True by (by apply elem_of_firstSeen).
    rewrite update_tabulated by apply NoDup_firstSeen.
    apply map_ext. intros k. f_equal.
    rewrite filter_app. destruct (decide (k = key index)) as [->|Hne].
    + by rewrite filter_cons_True, filter_nil by done.
    + by rewrite filter_cons_False, filter_nil, app_nil_r by done.
  - rewrite decide_False by (by rewrite <- elem_of_firstSeen).
    rewrite set_tabulated by done. rewrite map_app. simpl. f_equal.
    + apply map_ext_in. intros k Hk. f_equal.
      rewrite filter_app, filter_cons_False, filter_nil, app_nil_r; [done|].
      intros Heq. apply Hin. rewrite Heq. by apply list_elem_of_In.
    + f_equal. f_equal.
      rewrite filter_app, filter_cons_True, filter_nil by done.
      rewrite filter_none; [done|].
      intros i Hi Heq. apply Hin.
      apply elem_of_firstSeen. rewrite <- Heq.
      apply list_elem_of_fmap. eauto.
Qed.

End FacetMap.

Section Grouping.
Context {K : Type} `{EqDecision K}.
Variable key : nat -> K.

Lemma concat_insert_one (F : K -> list nat) (a : nat) (ks : list K) :
  NoDup ks -> key a ∈ ks ->
  concat (map (fun k => if decide (key a = k) then a :: F k else F k) ks)
  ≡ₚ a :: concat (map F ks).
Proof.
  induction 1 as [|k0 ks Hk0 Hnd IH]; intros Hin.
  - by apply elem_of_nil in Hin.
  - simpl. destruct (decide (key a = k0)) as [Heq|Hne].
    + simpl. do 2 f_equiv. apply reflexive_eq. f_equal.
      apply map_ext_in. intros k Hk. rewrite decide_False; [done|].
      intros Hk'. apply Hk0. rewrite <- Heq, Hk'. by apply list_elem_of_In.
    + apply elem_of_cons in Hin as [Hin|Hin]; [done|].
      rewrite IH by done. by rewrite Permutation_middle.
Qed.

Lemma concat_groups (l : list nat) (ks : list K) :
  NoDup ks -> (forall i, i ∈ l -> key i ∈ ks) ->
  concat (map (fun k => filter (fun i => key i = k) l) ks) ≡ₚ l.
Proof.
  intros Hnd. induction l as [|a l IH]; intros Hks.
  - apply reflexive_eq. clear Hnd Hks.
    induction ks as [|k ks IHks]; [done|]. simpl. exact IHks.
  - transitivity (a :: concat (map (fun k => filter (fun i => key i = k) l) ks));
      [|constructor; apply IH; intros i Hi; apply Hks; by right].
    rewrite <- concat_insert_one by (done || (apply Hks; left)).
    done.
Qed.

End Grouping.

Section FacetingProofs.
Context {Scalar : Type} `{EqDecision Scalar}.
Implicit Types (rows : list (gmap string Scalar)) (columns : list string).

Lemma facetValues_in_range rows columns index :
  index < length rows ->
  facetValues (rows !! index) columns = Some (tuple rows columns index).
Proof.
  intros Hlt. apply lookup_lt_is_Some_2 in Hlt as [r Hr].
  unfold facetValues, tuple, cell. rewrite Hr.
  induction columns as [|c columns IH]; simpl; [done|].
  by rewrite IH.
Qed.

Lemma facetRows_loop_facetsOf rows columns rest done :
  Forall (fun i => i < length rows) rest ->
  facetRows_loop rows columns rest (facetsOf (tuple rows columns) done)
  = Some (facetsOf (tuple rows columns) (done ++ rest)).
Proof.
  intros Hrest. revert done.
  induction Hrest as [|index rest Hlt _ IH]; intros done; simpl.
  - by rewrite app_nil_r.
  - rewrite facetValues_in_range by done.
    rewrite facetsOf_step, IH. by rewrite <- app_assoc.
Qed.

Lemma tuple_eq_iff rows columns i j :
  tuple rows columns i = tuple rows columns j <->
  forall c, c ∈ columns -> cell rows i c = cell rows j c.
Proof.
  unfold tuple. induction columns as [|c columns IH]; simpl.
  - split; [|done]. intros _ c Hc. by apply elem_of_nil in Hc.
  - split.
    + intros Heq c' Hc'. injection Heq as Hc Hrest.
      apply elem_of_cons in Hc' as [->|Hc']; [done|]. by apply IH.
    + intros Hall. f_equal; [apply Hall; left|].
      apply IH. intros c' Hc'. apply Hall. by right.
Qed.

End FacetingProofs.

(** * Row faceting: the claims *)

Section FacetRows.
Context {Scalar : Type} `{EqDecision Scalar}.
Implicit Types (rows : list (gmap string Scalar)) (columns : list string).

(** With columns and indices within the row collection, [facetRows] returns
    the groups in closed form: one group per distinct value tuple, in order
    of first appearance, each holding the indices with that tuple in
    traversal order. *)
Lemma facetRows_closed_form rows indices columns :
  Forall (fun i => i < length rows) indices ->
  facetRows rows indices (Some columns) =
  Some (map (fun k => filter (fun i => tuple rows columns i = k) indices)
          (firstSeen (map (tuple rows columns) indices))).
Proof.
  intros Hin. unfold facetRows.
  change MultistringHashMap.empty with (facetsOf (tuple rows columns) []).
  rewrite facetRows_loop_facetsOf by done. simpl.
  unfold MultistringHashMap.values, facetsOf. by rewrite map_map.
Qed.

(** C3. For indices within the row collection and a list of facet columns,
    [facetRows] returns a partition of the input indices: an index is in the
    input iff it is in some group, no index is in two groups, and the groups
    together hold each occurrence once. Two indices share a group iff their
    rows agree at every listed column. The groups come in the order in which
    their value tuples first appear, and inside a group the indices keep the
    traversal order. *)
Theorem facetRows_partition rows indices columns :
  Forall (fun i => i < length rows) indices ->
  exists groups,
    facetRows rows indices (Some columns) = Some groups /\
    (forall i, i ∈ indices <-> exists g, g ∈ groups /\ i ∈ g) /\
    (forall a b ga gb i,
        groups !! a = Some ga -> groups !! b = Some gb ->
        i ∈ ga -> i ∈ gb -> a = b) /\
    concat groups ≡ₚ indices /\
    (forall i j, i ∈ indices -> j ∈ indices ->
        (exists g, g ∈ groups /\ i ∈ g /\ j ∈ g) <->
        (forall c, c ∈ columns -> cell rows i c = cell rows j c)) /\
    groups =
      map (fun k => filter (fun i => tuple rows columns i = k) indices)
        (firstSeen (map (tuple rows columns) indices)).
Proof.
  intros Hin. eexists. split; [by apply facetRows_closed_form|].
  set (key := tuple rows columns).
  set (ks := firstSeen (map key indices)).
  assert (Hks : forall i, i ∈ indices -> key i ∈ ks).
  { intros i Hi. apply elem_of_firstSeen, list_elem_of_fmap. eauto. }
  assert (Hnd : NoDup ks) by apply NoDup_firstSeen.
  assert (Hgroup : forall g, g ∈ map (fun k => filter (fun i => key i = k) indices) ks
            <-> exists k, k ∈ ks /\ g = filter (fun i => key i = k) indices).
  { intros g. rewrite list_elem_of_fmap. split; intros (k & ? & ?); eauto. }
  repeat split.
  - intros Hi. exists (filter (fun i' => key i' = key i) indices). split.
    + apply Hgroup. eauto.
    + by apply list_elem_of_filter.
  - intros (g & Hg & Hi). apply Hgroup in Hg as (k & _ & ->).
    by apply list_elem_of_filter in Hi as [_ ?].
  - intros a b ga gb i Ha Hb Hia Hib.
    apply list_lookup_fmap_Some in Ha as (ka & -> & Hka).
    apply list_lookup_fmap_Some in Hb as (kb & -> & Hkb).
    apply list_elem_of_filter in Hia as [Hia _].
    apply list_elem_of_filter in Hib as [Hib _].
    eapply NoDup_lookup; [exact Hnd|exact Hka|]. by rewrite <- Hia, Hib.
  - by apply concat_groups.
  - intros (g & Hg & Hi & Hj). apply Hgroup in Hg as (k & _ & ->).
    apply list_elem_of_filter in Hi as [Hi _].
    apply list_elem_of_filter in Hj as [Hj _].
    apply tuple_eq_iff. change (key i = key j). congruence.
  - intros Heq. apply tuple_eq_iff in Heq.
    exists (filter (fun i' => key i' = key i) indices). split; [|split].
    + apply Hgroup. eauto.
    + by apply list_elem_of_filter.
    + by apply list_elem_of_filter.
Qed.

(** C8. Called with no columns, [facetRows] returns one group, the input
    index list itself in its order, whatever the rows are: no row is read,
    and an index outside the row collection is returned like any other. *)
Theorem facetRows_no_columns rows indices :
  facetRows rows indices None = Some [indices].
Proof. unfold facetRows. reflexivity. Qed.

End FacetRows.

(** * The renderer's monad: rules *)

Section Rules.
Context {Dataset Ext : Type}.
Implicit Types (s : Store Dataset Ext).
#[local] Abbreviation RenderM := (Render Dataset Ext).

Lemma bind_Returned {A B : Type} (m : RenderM A) (k : A -> RenderM B) s b s' :
  bind m k s = (Returned b, s') ->
  exists a s1, m s = (Returned a, s1) /\ k a s1 = (Returned b, s').
Proof.
  unfold bind. destruct (m s) as [[a|] s1]; [eauto|discriminate].
Qed.


Lemma bind_Thrown_run {A B : Type} (m : RenderM A) (k : A -> RenderM B) s s1 :
  m s = (Thrown, s1) -> bind m k s = (Thrown, s1).
Proof. unfold bind. by intros ->. Qed.

Section Sat.
Context (R : relation (Store Dataset Ext)) `{!PreOrder R}.

Lemma sat_ret {A : Type} (Q : A -> Prop) (a : A) : Q a -> sat R Q (ret a).
Proof. intros Ha s. split; [reflexivity|done]. Qed.

Lemma sat_throw {A : Type} (Q : A -> Prop) : sat R Q throw.
Proof. intros s. split; [reflexivity|done]. Qed.

Lemma sat_read {A : Type} (Q : A -> Prop) (field : World Dataset Ext -> A) :
  (forall w, Q (field w)) -> sat R Q (read field).
Proof. intros Hq s. split; [reflexivity|apply Hq]. Qed.

Lemma sat_bind {A B : Type} (P : A -> Prop) (Q : B -> Prop)
    (m : RenderM A) (k : A -> RenderM B) :
  sat R P m -> (forall a, P a -> sat R Q (k a)) -> sat R Q (bind m k).
Proof.
  intros Hm Hk s. specialize (Hm s). unfold bind.
  destruct (m s) as [[a|] s1]; simpl in *.
  - destruct Hm as [Hs Ha]. destruct (Hk a Ha s1) as [Hs1 Hq].
    split; [by etransitivity|done].
  - by destruct Hm.
Qed.

Lemma sat_weaken {A : Type} (P Q : A -> Prop) (m : RenderM A) :
  sat R P m -> (forall a, P a -> Q a) -> sat R Q m.
Proof.
  intros Hm Hpq s. destruct (Hm s) as [Hs Ha]. split; [done|].
  destruct (m s).1; auto.
Qed.

Lemma sat_mapR {A B : Type} (Q : B -> Prop) (f : A -> RenderM B)
    (l : list A) :
  (forall a, a ∈ l -> sat R Q (f a)) -> sat R (Forall Q) (mapR f l).
Proof.
  induction l as [|a l IH]; intros Hf; simpl.
  - by apply sat_ret.
  - apply sat_bind with (P := Q); [apply Hf; left|]. intros b Hb.
    apply sat_bind with (P := Forall Q).
    + apply IH. intros a' Ha'. apply Hf. by right.
    + intros bs Hbs. apply sat_ret. by constructor.
Qed.

Lemma sat_foldR {A B : Type} (I : B -> Prop) (f : B -> A -> RenderM B)
    (l : list A) (b : B) :
  (forall b a, a ∈ l -> I b -> sat R I (f b a)) -> I b ->
  sat R I (foldR f l b).
Proof.
  revert b. induction l as [|a l IH]; intros b Hf Hb; simpl.
  - by apply sat_ret.
  - apply sat_bind with (P := I); [apply Hf; [left|done]|].
    intros b' Hb'. apply IH; [|done].
    intros b'' a' Ha'. apply Hf. by right.
Qed.

End Sat.

Global Instance anyStep_preorder : PreOrder (@anyStep Dataset Ext).
Proof. by split. Qed.

Global Instance logged_preorder (P : Call -> Prop) :
  PreOrder (@logged Dataset Ext P).
Proof.
  split.
  - intros s. exists []. by rewrite app_nil_r.
  - intros s1 s2 s3 (cs1 & H1 & Hp1) (cs2 & H2 & Hp2).
    exists (cs1 ++ cs2). rewrite H2, H1, app_assoc. split; [done|].
    by apply Forall_app.
Qed.

Global Instance framed_preorder : PreOrder (@framed Dataset Ext).
Proof.
  split.
  - intros s. by split.
  - intros s1 s2 s3 [H1 Ha1] [H2 Ha2]. split; [congruence|lia].
Qed.

Lemma sat_any {A : Type} (m : RenderM A) : sat anyStep (fun _ => True) m.
Proof. intros s. split; [done|]. by destruct (m s).1. Qed.

End Rules.

(** * The renderer moves the store by the steps of its collaborators *)

Section Stepping.
Context {Dataset Ext : Type}.
Context (R : relation (Store Dataset Ext)) `{!PreOrder R}.
Variable isType : string -> string -> bool.
Variable this : ChartRenderer Dataset Ext.
Hypothesis Hsteps : stepwise R this.

#[local] Abbreviation any := (fun _ => True).

Lemma makeGroup_sat elements : sat R any (makeGroup elements).
Proof.
  unfold makeGroup. apply sat_bind with (P := any); [done|apply Hsteps|].
  intros oid _. by apply sat_ret.
Qed.

Lemma renderGlyphMarks_slot_sat ps pss cs offset state index pair :
  sat R any (renderGlyphMarks_slot this ps pss cs offset state index pair).
Proof.
  destruct Hsteps as (_ & _ & Hmark & _).
  destruct pair as [mark markState]. unfold renderGlyphMarks_slot.
  destruct (negb _); [by apply sat_ret|].
  eapply sat_bind; [done|apply Hmark|]. intros cls Hcls.
  eapply sat_bind; [done|apply Hcls|]. intros [g|] _; [|by apply sat_ret].
  eapply sat_bind; [done|apply makeGroup_sat|]. intros group _.
  by apply sat_ret.
Qed.

Lemma renderGlyphMarks_sat ps pss cs offset glyph state index :
  sat R any (renderGlyphMarks this ps pss cs offset glyph state index).
Proof.
  unfold renderGlyphMarks. destruct glyph as [glyph|]; [|by apply sat_throw].
  eapply sat_weaken; [apply sat_mapR; [done|]|done].
  intros pair _. apply renderGlyphMarks_slot_sat.
Qed.

Lemma renderChart_glyph_sat ps pss cs mark entry :
  sat R any (renderChart_glyph this ps pss cs mark entry).
Proof.
  destruct entry as [glyphIndex glyphState]. unfold renderChart_glyph.
  destruct (_ !! 0); [apply renderGlyphMarks_sat|by apply sat_throw].
Qed.

Lemma renderChart_glyphArrays_sat ps pss cs mark :
  sat R any (renderChart_glyphArrays this ps pss cs mark).
Proof.
  unfold renderChart_glyphArrays.
  eapply sat_weaken; [apply sat_mapR; [done|]|done].
  intros entry _. apply renderChart_glyph_sat.
Qed.

Lemma renderChart_glyphLayers_sat cs glyphArrays :
  sat R any (renderChart_glyphLayers cs glyphArrays).
Proof.
  unfold renderChart_glyphLayers.
  eapply sat_bind; [done| |].
  { apply sat_mapR; [done|]. intros x _. apply makeGroup_sat. }
  intros glyphElements _.
  eapply sat_bind; [done|apply makeGroup_sat|]. intros gGlyphs _.
  by apply sat_ret.
Qed.

Lemma renderChart_plotSegment_sat chart element elementState :
  sat R any (renderChart_plotSegment this chart element elementState).
Proof.
  destruct Hsteps as (_ & _ & _ & Hplot & _).
  unfold renderChart_plotSegment.
  eapply sat_bind; [done|apply Hplot|].
  intros plotSegmentClass (Hcs & Hgraphics & Hbackground).
  eapply sat_bind; [done|apply Hcs|]. intros coordinateSystem _.
  eapply sat_bind; [done|apply renderChart_glyphArrays_sat|].
  intros glyphArrays _.
  eapply sat_bind; [done|apply renderChart_glyphLayers_sat|].
  intros gGlyphs _.
  eapply sat_bind; [done|apply Hgraphics|]. intros g _.
  eapply sat_bind; [done|apply makeGroup_sat|]. intros gBackgroundElements _.
  eapply sat_bind; [done|apply Hbackground|]. intros background _.
  eapply sat_bind; [done|apply makeGroup_sat|]. intros gElement _.
  by apply sat_ret.
Qed.

Lemma renderChart_mark_sat element elementState :
  sat R any (renderChart_mark this element elementState).
Proof.
  destruct Hsteps as (_ & _ & Hmark & _).
  unfold renderChart_mark.
  eapply sat_bind; [done|apply makeGroup_sat|]. intros gElement _.
  eapply sat_bind; [done|apply Hmark|]. intros elementClass Hcls.
  eapply sat_bind; [done|apply Hcls|]. intros g _.
  by apply sat_ret.
Qed.

Lemma renderChart_chartElement_sat element elementState :
  sat R any (renderChart_chartElement this element elementState).
Proof.
  destruct Hsteps as (_ & _ & _ & _ & Helement).
  unfold renderChart_chartElement.
  eapply sat_bind; [done|apply makeGroup_sat|]. intros gElement _.
  eapply sat_bind; [done|apply Helement|]. intros elementClass Hcls.
  eapply sat_bind; [done|apply Hcls|]. intros g _.
  by apply sat_ret.
Qed.

Lemma renderChart_element_sat chart graphics pair :
  sat R any (renderChart_element isType this chart graphics pair).
Proof.
  destruct pair as [element elementState]. unfold renderChart_element.
  destruct (negb _); [by apply sat_ret|].
  destruct (isType _ "plot-segment"); [|destruct (isType _ "mark")].
  - eapply sat_bind; [done|apply renderChart_plotSegment_sat|].
    intros gElement _. by apply sat_ret.
  - eapply sat_bind; [done|apply renderChart_mark_sat|].
    intros gElement _. by apply sat_ret.
  - eapply sat_bind; [done|apply renderChart_chartElement_sat|].
    intros gElement _. by apply sat_ret.
Qed.

Lemma renderChart_sat dataset chart chartState :
  sat R any (renderChart isType this dataset chart chartState).
Proof.
  pose proof Hsteps as (_ & Hchart & _).
  unfold renderChart.
  eapply sat_bind; [done|apply Hchart|]. intros chartClass Hcls.
  eapply sat_bind; [done|apply Hcls|]. intros bg _.
  eapply sat_bind; [done|apply makeGroup_sat|]. intros linkGroup _.
  eapply sat_bind; [done| |].
  { apply sat_foldR with (I := any); [done| |done].
    intros graphics pair _ _. apply renderChart_element_sat. }
  intros graphics _. apply makeGroup_sat.
Qed.

End Stepping.

(** * Running the renderer's steps *)

Section Runs.
Context {Dataset Ext : Type}.
Implicit Types (s : Store Dataset Ext).
#[local] Abbreviation RenderM := (Render Dataset Ext).

Lemma sat_run {A : Type} (R : relation (Store Dataset Ext)) (Q : A -> Prop)
    (m : RenderM A) s r s' :
  sat R Q m -> m s = (r, s') ->
  R s s' /\ match r with Returned a => Q a | Thrown => True end.
Proof. intros Hm Hrun. specialize (Hm s). by rewrite Hrun in Hm. Qed.

Lemma invoke_Returned {A : Type} call (c : Capability Dataset Ext A) s a s' :
  invoke call c s = (Returned a, s') ->
  c (world s) = (Returned a, world s') /\ calls s' = calls s ++ [call].
Proof.
  unfold invoke. destruct (c (world s)) as [r w].
  intros [= -> <-]. done.
Qed.

Lemma invoke_run {A : Type} call (c : Capability Dataset Ext A) s r w :
  c (world s) = (r, w) ->
  invoke call c s = (r, {| world := w; calls := calls s ++ [call] |}).
Proof. unfold invoke. by intros ->. Qed.

Lemma makeGroup_run elements s :
  makeGroup elements s =
  (Returned (Graphics.Build_Group (allocated (world s)) elements
               None None None),
   afterAllocation s).
Proof. reflexivity. Qed.

Lemma mapR_Forall2 {A B : Type} (f : A -> RenderM B) (l : list A) s bs s' :
  mapR f l s = (Returned bs, s') ->
  Forall2 (fun a b => exists sa sb, f a sa = (Returned b, sb)) l bs.
Proof.
  revert s bs s'. induction l as [|a l IH]; intros s bs s'; simpl.
  - intros [= <- _]. constructor.
  - intros Hrun. apply bind_Returned in Hrun as (b & s1 & Hb & Hrun).
    apply bind_Returned in Hrun as (bs' & s2 & Hbs & Hrun).
    injection Hrun as <- _. constructor; [eauto|by eapply IH].
Qed.

Lemma mapR_makeGroup (rows : list (list (option Graphics.Group))) s :
  exists groups s',
    mapR (fun x => makeGroup (map Graphics.child x)) rows s
    = (Returned groups, s') /\
    map Graphics.elements groups = map (map Graphics.child) rows.
Proof.
  revert s. induction rows as [|row rows IH]; intros s; simpl.
  - by exists [], s.
  - destruct (IH (afterAllocation s)) as (groups & s' & Hrun & Hels).
    unfold bind at 1. rewrite makeGroup_run.
    unfold bind at 1. rewrite Hrun.
    eexists _, _. split; [reflexivity|]. simpl. by rewrite Hels.
Qed.

End Runs.

Lemma transpose_length {A : Type} (undefined : A) (matrix : list (list A))
    row0 :
  head matrix = Some row0 ->
  length (Common.transpose undefined matrix) = length row0.
Proof.
  destruct matrix; intros [= ->]. simpl. by rewrite length_map, length_seq.
Qed.

Lemma transpose_lookup {A : Type} (undefined : A) (matrix : list (list A))
    row0 k :
  head matrix = Some row0 -> k < length row0 ->
  Common.transpose undefined matrix !! k
  = Some (map (fun row => nth k row undefined) matrix).
Proof.
  destruct matrix as [|row matrix]; intros [= ->] Hk.
  unfold Common.transpose.
  rewrite list_lookup_fmap, lookup_seq_lt by done. done.
Qed.

Lemma entries_length {A : Type} (l : list A) : length (entries l) = length l.
Proof.
  unfold entries. rewrite length_zip, length_seq. lia.
Qed.

Lemma Forall2_map_diag {A B : Type} (P : A -> B -> Prop) (f : A -> B)
    (l : list A) :
  Forall (fun a => P a (f a)) l -> Forall2 P l (map f l).
Proof. induction 1; simpl; by constructor. Qed.

Lemma set_transform_elements t g :
  Graphics.elements (Graphics.set_transform t g) = Graphics.elements g.
Proof. by destruct g. Qed.

(** * The layers of a plot segment *)

Section Layers.
Context {Dataset Ext : Type}.
Variable this : ChartRenderer Dataset Ext.

(** C1, as amended. A plot segment has one mark-slot sequence per glyph
    instance, in instance order. When it has at least one glyph instance and
    the sequences all have the same length M, the glyph-layer group has
    exactly M children, each a layer group, and layer k holds one slot per
    instance, in instance order, the k-th slot of that instance's sequence, a
    null slot staying a null child at its place. When it has no glyph
    instance, the glyph-layer group has no layer. *)
Theorem renderChart_glyphLayers_transposed
    plotSegment plotSegmentState coordinateSystem mark
    (s s1 : Store Dataset Ext) glyphArrays M :
  renderChart_glyphArrays this plotSegment plotSegmentState coordinateSystem
    mark s = (Returned glyphArrays, s1) ->
  Forall (fun slots => length slots = M) glyphArrays ->
  exists gGlyphs s2,
    renderChart_glyphLayers coordinateSystem glyphArrays s1
    = (Returned gGlyphs, s2) /\
    Forall2
      (fun entry slots =>
         exists sa sb,
           renderChart_glyph this plotSegment plotSegmentState
             coordinateSystem mark entry sa = (Returned slots, sb))
      (entries (Specification.PlotSegmentState.glyphs plotSegmentState))
      glyphArrays /\
    (Specification.PlotSegmentState.glyphs plotSegmentState = [] ->
     Graphics.elements gGlyphs = []) /\
    (Specification.PlotSegmentState.glyphs plotSegmentState <> [] ->
     length (Graphics.elements gGlyphs) = M /\
     forall k, k < M ->
       exists layer,
         Graphics.elements gGlyphs !! k
         = Some (Some (Graphics.GroupElement layer)) /\
         Forall2
           (fun slots element =>
              exists slot,
                slots !! k = Some slot /\ element = Graphics.child slot)
           glyphArrays (Graphics.elements layer)).
Proof.
  intros Hrun Hlen.
  pose proof (mapR_Forall2 _ _ _ _ _ Hrun) as Hall.
  destruct (mapR_makeGroup (Common.transpose None glyphArrays) s1)
    as (groups & s2 & Hgroups & Hels).
  unfold renderChart_glyphLayers, bind at 1. rewrite Hgroups.
  unfold bind at 1. rewrite makeGroup_run. unfold ret.
  eexists _, _. split; [reflexivity|]. split; [done|].
  rewrite set_transform_elements. simpl Graphics.elements. split.
  { intros Hnone. rewrite Hnone in Hall. apply Forall2_nil_inv_l in Hall.
    subst glyphArrays. apply fmap_nil_inv in Hels. by subst groups. }
  intros Hne.
  assert (Hhead : exists row0, head glyphArrays = Some row0).
  { destruct glyphArrays as [|row0 rows]; [|by eexists].
    apply Forall2_length in Hall. rewrite entries_length in Hall.
    destruct (Specification.PlotSegmentState.glyphs plotSegmentState);
      [done|discriminate]. }
  destruct Hhead as [row0 Hhead].
  assert (Hrow0 : length row0 = M).
  { apply head_Some_elem_of in Hhead.
    by apply (proj1 (Forall_forall _ _) Hlen) in Hhead. }
  assert (Hcount : length groups = M).
  { rewrite <- (length_map Graphics.elements), Hels, length_map.
    by rewrite (transpose_length _ _ row0). }
  split; [by rewrite length_map|].
  intros k Hk.
  destruct (lookup_lt_is_Some_2 groups k) as [layer Hlayer]; [lia|].
  exists layer. split; [by rewrite list_lookup_fmap, Hlayer|].
  assert (Hlayer' : map Graphics.elements groups !! k
                    = Some (Graphics.elements layer))
    by (by rewrite list_lookup_fmap, Hlayer).
  rewrite Hels, list_lookup_fmap, (transpose_lookup _ _ row0) in Hlayer'
    by (done || lia).
  injection Hlayer' as <-.
  rewrite map_map. apply Forall2_map_diag.
  eapply Forall_impl; [exact Hlen|]. intros slots Hslots. simpl in Hslots.
  destruct (lookup_lt_is_Some_2 slots k) as [slot Hslot]; [lia|].
  exists slot. split; [done|]. f_equal.
  by apply nth_lookup_Some with (d := None) in Hslot.
Qed.

End Layers.

(** * The root group *)

Lemma key_set_key k g : Graphics.key (Graphics.set_key k g) = Some k.
Proof. by destruct g. Qed.

Lemma zipArray_fst {A B : Type} (a : list A) (b : list B) :
  length a = length b -> map fst (Common.zipArray a b) = a.
Proof.
  revert b. induction a as [|x a IH]; intros [|y b]; simpl; try done.
  intros [= Hlen]. by rewrite IH.
Qed.

Section Root.
Context {Dataset Ext : Type}.
Variable isType : string -> string -> bool.
Variable this : ChartRenderer Dataset Ext.
Implicit Types (s : Store Dataset Ext).

Lemma renderChart_plotSegment_key chart element elementState :
  sat anyStep (fun g => Graphics.key g = Some (Specification._id element))
    (renderChart_plotSegment this chart element elementState).
Proof.
  unfold renderChart_plotSegment.
  do 8 (eapply sat_bind; [done|apply sat_any|]; intros ? _).
  apply sat_ret; [done|]. apply key_set_key.
Qed.

Lemma renderChart_mark_key element elementState :
  sat anyStep (fun g => Graphics.key g = Some (Specification._id element))
    (renderChart_mark this element elementState).
Proof.
  unfold renderChart_mark.
  do 3 (eapply sat_bind; [done|apply sat_any|]; intros ? _).
  apply sat_ret; [done|]. apply key_set_key.
Qed.

Lemma renderChart_chartElement_key element elementState :
  sat anyStep (fun g => Graphics.key g = Some (Specification._id element))
    (renderChart_chartElement this element elementState).
Proof.
  unfold renderChart_chartElement.
  do 3 (eapply sat_bind; [done|apply sat_any|]; intros ? _).
  apply sat_ret; [done|]. apply key_set_key.
Qed.

(** One pass of the loop leaves [graphics] as it is for an invisible
    element, and pushes one group keyed by the element's id otherwise. *)
Lemma renderChart_element_pushes chart graphics element elementState :
  sat anyStep
    (fun graphics' =>
       if Specification.visible (Specification.properties element)
       then exists g,
           graphics' = graphics ++ [Some (Graphics.GroupElement g)] /\
           Graphics.key g = Some (Specification._id element)
       else graphics' = graphics)
    (renderChart_element isType this chart graphics (element, elementState)).
Proof.
  unfold renderChart_element.
  destruct (Specification.visible _); simpl; [|by apply sat_ret].
  destruct (isType _ "plot-segment"); [|destruct (isType _ "mark")].
  - eapply sat_bind; [done|apply renderChart_plotSegment_key|].
    intros g Hg. apply sat_ret; [done|]. by exists g.
  - eapply sat_bind; [done|apply renderChart_mark_key|].
    intros g Hg. apply sat_ret; [done|]. by exists g.
  - eapply sat_bind; [done|apply renderChart_chartElement_key|].
    intros g Hg. apply sat_ret; [done|]. by exists g.
Qed.

Lemma renderChart_loop_pushes chart pairs graphics s graphics' s' :
  foldR (renderChart_element isType this chart) pairs graphics s
  = (Returned graphics', s') ->
  exists groups,
    graphics' =
      graphics ++ map (fun g => Some (Graphics.GroupElement g)) groups /\
    map Graphics.key groups =
      map (fun element => Some (Specification._id element))
        (List.filter
           (fun element =>
              Specification.visible (Specification.properties element))
           (map fst pairs)).
Proof.
  revert graphics s. induction pairs as [|[element elementState] pairs IH];
    intros graphics s; simpl.
  - intros [= <- _]. exists []. by rewrite app_nil_r.
  - intros Hrun. apply bind_Returned in Hrun as (graphics1 & s1 & Hone & Hrun).
    apply IH in Hrun as (groups & -> & Hkeys).
    eapply sat_run in Hone as [_ Hone]; [|apply renderChart_element_pushes].
    simpl in Hone.
    destruct (Specification.visible (Specification.properties element)).
    + destruct Hone as (g & -> & Hg). exists (g :: groups). simpl.
      rewrite <- app_assoc, Hkeys, Hg. done.
    + subst graphics1. by exists groups.
Qed.

(** C2. The root group returned by [renderChart], for a chart state aligned
    with the chart's elements, holds in this order: the chart background when
    the chart class returned one (and nothing in its place otherwise), the
    link group, which has no child, and one group per visible element of the
    chart in specification order, keyed by the element's id. An invisible
    element has no child of any kind. *)
Theorem renderChart_root dataset chart chartState s root s' :
  length (Specification.Chart.elements chart)
  = length (Specification.ChartState.elements chartState) ->
  renderChart isType this dataset chart chartState s = (Returned root, s') ->
  exists chartClass w1 bg w2 linkGroup groups,
    getChartClass (manager this) chartState (world s)
    = (Returned chartClass, w1) /\
    getBackgroundGraphics chartClass w1 = (Returned bg, w2) /\
    Graphics.elements root =
      match bg with Some bg => [Some bg] | None => [] end
      ++ [Some (Graphics.GroupElement linkGroup)]
      ++ map (fun g => Some (Graphics.GroupElement g)) groups /\
    Graphics.elements linkGroup = [] /\
    map Graphics.key groups =
      map (fun element => Some (Specification._id element))
        (List.filter
           (fun element =>
              Specification.visible (Specification.properties element))
           (Specification.Chart.elements chart)).
Proof.
  intros Haligned Hrun. unfold renderChart in Hrun.
  apply bind_Returned in Hrun as (chartClass & s1 & Hclass & Hrun).
  apply bind_Returned in Hrun as (bg & s2 & Hbg & Hrun).
  apply bind_Returned in Hrun as (linkGroup & s3 & Hlink & Hrun).
  apply bind_Returned in Hrun as (graphics & s4 & Hloop & Hrun).
  apply invoke_Returned in Hclass as [Hclass _].
  apply invoke_Returned in Hbg as [Hbg _].
  rewrite makeGroup_run in Hlink. injection Hlink as <- _.
  rewrite makeGroup_run in Hrun. injection Hrun as <- _.
  apply renderChart_loop_pushes in Hloop as (groups & -> & Hkeys).
  rewrite zipArray_fst in Hkeys by done.
  exists chartClass, (world s1), bg, (world s2).
  exists (Graphics.Build_Group (allocated (world s2)) [] None None None), groups.
  split; [done|]. split; [done|]. split; [|by split].
  simpl. destruct bg; simpl; by rewrite <- ?app_assoc.
Qed.

(** C10. For a visible chart element that is a mark and not a plot segment,
    whatever the mark class returns, [null] included, the pass of the loop
    pushes one group keyed by the element's id, without selectable metadata,
    whose only child is the returned value as it was returned. The class is
    resolved from the element's state and drawn in Cartesian coordinates at
    the origin, with offset (0,0), no glyph index and no emphasis. *)
Theorem renderChart_element_mark chart graphics element elementState s
    elementClass w1 g w2 :
  Specification.visible (Specification.properties element) = true ->
  isType (Specification.classID element) "plot-segment" = false ->
  isType (Specification.classID element) "mark" = true ->
  let origin := {| Graphics.x := 0; Graphics.y := 0 |} in
  let cs := Graphics.CartesianCoordinates origin in
  getMarkClass (manager this) (Specification.asObjectState elementState)
    (world (afterAllocation s)) = (Returned elementClass, w1) ->
  getGraphics elementClass cs origin None None w1 = (Returned g, w2) ->
  renderChart_element isType this chart graphics (element, elementState) s
  = (Returned
       (graphics ++
        [Some (Graphics.GroupElement
                 (Graphics.Build_Group (allocated (world s)) [g] None
                    (Some (Specification._id element)) None))]),
     {| world := w2;
        calls :=
          calls s ++
          [CallGetMarkClass (Specification.asObjectState elementState);
           CallMarkGetGraphics (object elementClass) cs origin None None]
     |}).
Proof.
  intros Hvisible Hplot Hmark origin cs Hclass Hg.
  unfold renderChart_element. rewrite Hvisible, Hplot, Hmark. simpl.
  unfold renderChart_mark.
  unfold bind at 1. unfold bind at 1. rewrite makeGroup_run.
  unfold bind at 1. rewrite (invoke_run _ _ _ _ _ Hclass).
  unfold bind at 1. erewrite invoke_run by exact Hg.
  unfold ret. simpl. by rewrite <- app_assoc.
Qed.

End Root.

(** * The marks of a glyph *)

Lemma zipArray_elem_of {A B : Type} (a : list A) (b : list B) x y :
  (x, y) ∈ Common.zipArray a b -> x ∈ a /\ y ∈ b.
Proof.
  revert b. induction a as [|x' a IH]; intros [|y' b]; simpl;
    try (intros H; by apply elem_of_nil in H).
  rewrite !elem_of_cons. intros [[= -> ->]|Hin]; [by split; left|].
  apply IH in Hin as [? ?]. by split; right.
Qed.




Section PrefixRuns.
Context {Dataset Ext : Type}.
Implicit Types (s : Store Dataset Ext).


End PrefixRuns.

Section GlyphMarks.
Context {Dataset Ext : Type}.
Variable this : ChartRenderer Dataset Ext.
Implicit Types (s : Store Dataset Ext).



(** C5. An invisible mark gives a null slot and leaves the store as it is:
    no class is resolved and none is called, whatever the manager holds. A
    visible mark whose class returns no primitive gives a null slot too. In
    the sequence returned by [renderGlyphMarks], the slot at the place of an
    invisible mark is null. *)
Theorem renderGlyphMarks_null_slots plotSegment plotSegmentState
    coordinateSystem offset state index :
  (forall mark markState s,
      Specification.visible (Specification.properties mark) = false ->
      renderGlyphMarks_slot this plotSegment plotSegmentState coordinateSystem
        offset state index (mark, markState) s = (Returned None, s)) /\
  (forall mark markState s cls w1 w2,
      Specification.visible (Specification.properties mark) = true ->
      getMarkClass (manager this) markState (world s) = (Returned cls, w1) ->
      getGraphics cls coordinateSystem offset (Some index)
        (Specification.GlyphState.emphasized state) w1 = (Returned None, w2) ->
      (renderGlyphMarks_slot this plotSegment plotSegmentState
         coordinateSystem offset state index (mark, markState) s).1
      = Returned None) /\
  (forall glyph s slots s' i mark markState,
      renderGlyphMarks this plotSegment plotSegmentState coordinateSystem
        offset (Some glyph) state index s = (Returned slots, s') ->
      Common.zipArray (Specification.Glyph.marks glyph)
        (Specification.GlyphState.marks state) !! i = Some (mark, markState) ->
      Specification.visible (Specification.properties mark) = false ->
      slots !! i = Some None).
Proof.
  assert (Hinvisible : forall mark markState s,
      Specification.visible (Specification.properties mark) = false ->
      renderGlyphMarks_slot this plotSegment plotSegmentState coordinateSystem
        offset state index (mark, markState) s = (Returned None, s)).
  { intros mark markState s Hvisible. unfold renderGlyphMarks_slot.
    by rewrite Hvisible. }
  split; [done|]. split.
  - intros mark markState s cls w1 w2 Hvisible Hcls Hg.
    unfold renderGlyphMarks_slot. rewrite Hvisible. simpl.
    unfold bind at 1. rewrite (invoke_run _ _ _ _ _ Hcls).
    unfold bind at 1. erewrite invoke_run by exact Hg. done.
  - intros glyph s slots s' i mark markState Hrun Hpair Hvisible.
    unfold renderGlyphMarks in Hrun. apply mapR_Forall2 in Hrun.
    destruct (Forall2_lookup_l _ _ _ _ _ Hrun Hpair)
      as (slot & Hslot & sa & sb & Hone).
    rewrite Hinvisible in Hone by done. by injection Hone as <- _.
Qed.

Lemma invoke_logged {A : Type} (P : Call -> Prop) (Q : A -> Prop) call
    (c : Capability Dataset Ext A) :
  P call -> (forall a, Q a) -> sat (logged P) Q (invoke call c).
Proof.
  intros Hcall Hq s. unfold invoke. destruct (c (world s)) as [r w]. simpl.
  split; [exists [call]; by repeat constructor|]. by destruct r.
Qed.




End GlyphMarks.

(** * The completion callback *)

Section Completion.
Context {Dataset Ext : Type}.
Variable isType : string -> string -> bool.
Variable this : ChartRenderer Dataset Ext.
Implicit Types (s : Store Dataset Ext).

Lemma allocate_logged (P : Call -> Prop) :
  sat (logged P) (fun _ => True) (@allocate Dataset Ext).
Proof. intros s. split; [|done]. exists []. simpl. by rewrite app_nil_r. Qed.

(** The calls of [renderChart] are calls to the manager and to the classes
    it resolves. *)
Lemma stepwise_logged (P : Call -> Prop) :
  (forall call, call <> CallAfterRendered -> P call) ->
  stepwise (logged P) this.
Proof.
  intros HP.
  assert (Hinvoke : forall (A : Type) (Q : A -> Prop) call
                      (c : Capability Dataset Ext A),
             call <> CallAfterRendered -> (forall a, Q a) ->
             sat (logged P) Q (invoke call c)).
  { intros A Q call c Hcall Hq. apply invoke_logged; auto. }
  split; [apply allocate_logged|].
  split; [intros st; apply Hinvoke; [done|]; intros cls; by apply Hinvoke|].
  split; [intros st; apply Hinvoke; [done|]; intros cls ????;
          by apply Hinvoke|].
  split; [intros st; apply Hinvoke; [done|]; intros cls;
          (split; [|split]); intros; by apply Hinvoke|].
  intros st; apply Hinvoke; [done|]; intros cls; by apply Hinvoke.
Qed.

Lemma render_run s :
  render isType this s =
  match
    renderChart isType this (dataset (world s)) (chart (world s))
      (chartState (world s)) s
  with
  | (Returned group, s1) =>
      match completionCallback this with
      | Some callback =>
          match callback (world s1) with
          | (Returned _, w) =>
              (Returned group,
               {| world := w; calls := calls s1 ++ [CallAfterRendered] |})
          | (Thrown, w) =>
              (Thrown,
               {| world := w; calls := calls s1 ++ [CallAfterRendered] |})
          end
      | None => (Returned group, s1)
      end
  | (Thrown, s1) => (Thrown, s1)
  end.
Proof.
  unfold render, completionCallback, bind, read. simpl.
  destruct (renderChart _ _ _ _ _ s) as [[group|] s1]; [|done].
  destruct (renderEvents this) as [events|]; [|done].
  destruct (afterRendered events) as [callback|]; [|done].
  unfold invoke. by destruct (callback (world s1)) as [[[]|] w].
Qed.

(** C7. A call to [render] runs [renderChart] first, and [renderChart]
    never calls the completion callback. When [renderChart] returns the tree
    and a callback was supplied, [render] calls the callback once, as its
    last call, on the world that [renderChart] left, and then returns that
    tree (or lets the callback's exception through). With no callback,
    [render] returns what [renderChart] returned. When [renderChart] throws,
    [render] throws from the same store: the callback is not called. *)
Theorem render_completion s :
  exists r s1 made,
    renderChart isType this (dataset (world s)) (chart (world s))
      (chartState (world s)) s = (r, s1) /\
    calls s1 = calls s ++ made /\
    (CallAfterRendered ∉ made) /\
    match r, completionCallback this with
    | Returned group, Some callback =>
        calls (render isType this s).2
        = calls s ++ made ++ [CallAfterRendered] /\
        world (render isType this s).2 = (callback (world s1)).2 /\
        (render isType this s).1
        = match (callback (world s1)).1 with
          | Returned _ => Returned group
          | Thrown => Thrown
          end
    | Returned group, None => render isType this s = (Returned group, s1)
    | Thrown, _ => render isType this s = (Thrown, s1)
    end.
Proof.
  pose proof (render_run s) as Hrender.
  destruct (renderChart isType this (dataset (world s)) (chart (world s))
              (chartState (world s)) s) as [r s1] eqn:Hrun.
  destruct (sat_run _ _ _ _ _ _
              (renderChart_sat (logged (fun call => call <> CallAfterRendered))
                 isType this (stepwise_logged _ (fun _ H => H)) _ _ _) Hrun)
    as [(made & Hmade & Hnone) _].
  exists r, s1, made. split; [done|]. split; [done|]. split.
  { intros Hin. by apply (proj1 (Forall_forall _ _) Hnone) in Hin. }
  destruct r as [group|]; [|done].
  destruct (completionCallback this) as [callback|]; [|done].
  rewrite Hrender. destruct (callback (world s1)) as [[[]|] w]; simpl;
    by rewrite Hmade, <- app_assoc.
Qed.

End Completion.

(** * The nodes of the groups that the renderer builds *)

Lemma Group_nodes_eq g :
  Group_nodes g = Graphics.oid g :: children_nodes (Graphics.elements g).
Proof. by destruct g. Qed.

Lemma children_nodes_app es es' :
  children_nodes (es ++ es') = children_nodes es ++ children_nodes es'.
Proof. unfold children_nodes. by rewrite map_app, concat_app. Qed.

Lemma elem_of_concat_map {A : Type} (f : A -> list nat) (l : list A) o :
  o ∈ concat (map f l) <-> exists a, a ∈ l /\ o ∈ f a.
Proof.
  rewrite list_elem_of_In, in_concat. split.
  - intros (ns & Hns & Ho). apply in_map_iff in Hns as (a & <- & Ha).
    exists a. by rewrite !list_elem_of_In.
  - intros (a & Ha & Ho). exists (f a).
    split; [apply in_map|]; by apply list_elem_of_In.
Qed.

Lemma elem_of_children_nodes o es :
  o ∈ children_nodes es <-> exists c, c ∈ es /\ o ∈ child_nodes c.
Proof. apply elem_of_concat_map. Qed.

Lemma Group_nodes_push c g :
  Group_nodes (Graphics.push c g) = Group_nodes g ++ child_nodes c.
Proof.
  destruct g as [o es t k sel]. rewrite !Group_nodes_eq. simpl.
  rewrite children_nodes_app. unfold children_nodes at 2. simpl.
  by rewrite app_nil_r.
Qed.

Lemma Group_nodes_set_key k g :
  Group_nodes (Graphics.set_key k g) = Group_nodes g.
Proof. by destruct g. Qed.

Lemma Group_nodes_set_transform t g :
  Group_nodes (Graphics.set_transform t g) = Group_nodes g.
Proof. by destruct g. Qed.

Lemma Element_nodes_set_selectable sel e :
  Element_nodes (Graphics.set_selectable sel e) = Element_nodes e.
Proof. by destruct e as [?|[]]. Qed.

(** A slot of a layer is a slot of a glyph instance, or null. *)
Lemma transpose_slots {A : Type} (undefined : A) (matrix : list (list A))
    layer x :
  layer ∈ Common.transpose undefined matrix -> x ∈ layer ->
  x = undefined \/ exists row, row ∈ matrix /\ x ∈ row.
Proof.
  unfold Common.transpose. destruct matrix as [|row0 rows].
  { intros H. by apply elem_of_nil in H. }
  intros Hlayer Hx. apply list_elem_of_fmap in Hlayer as (j & -> & _).
  apply list_elem_of_fmap in Hx as (row & -> & Hrow).
  destruct (decide (j < length row)) as [Hj|Hj].
  - right. exists row. split; [done|].
    apply list_elem_of_lookup. exists j.
    apply lookup_lt_is_Some_2 in Hj as [y Hy].
    by rewrite (nth_lookup_Some _ _ undefined _ Hy).
  - left. apply nth_overflow. lia.
Qed.

Section Made.
Context {Dataset Ext : Type}.
Variable foreign : nat -> Prop.
Implicit Types (s : Store Dataset Ext) (given : list nat).
#[local] Abbreviation RenderM := (Render Dataset Ext).
#[local] Abbreviation any := (fun _ => True).
#[local] Abbreviation none := (fun _ => @nil nat).

Lemma made_ret {A : Type} (Q : A -> Prop) nodes given (a : A) :
  Q a -> (forall o, o ∈ nodes a -> o ∈ given \/ foreign o) ->
  made foreign Q nodes given (ret a : RenderM A).
Proof.
  intros Ha Hnodes lo s a' s' Hlo Hgiven [= <- <-].
  split; [done|]. split; [done|]. intros o Ho.
  destruct (Hnodes o Ho) as [Hin|Hforeign]; [by apply Hgiven|by right].
Qed.

Lemma made_throw {A : Type} (Q : A -> Prop) nodes given :
  made foreign Q nodes given (@throw Dataset Ext A).
Proof. intros lo s a s' _ _ [= ]. Qed.

Lemma made_bind {A B : Type} (P : A -> Prop) (Q : B -> Prop) nodesA nodesB
    given (m : RenderM A) (k : A -> RenderM B) :
  made foreign P nodesA given m ->
  (forall a, P a -> made foreign Q nodesB (nodesA a ++ given) (k a)) ->
  made foreign Q nodesB given (bind m k).
Proof.
  intros Hm Hk lo s b s' Hlo Hgiven Hrun.
  apply bind_Returned in Hrun as (a & s1 & Ha & Hb).
  destruct (Hm lo s a s1 Hlo Hgiven Ha) as (Hs1 & Hp & Hnodes).
  destruct (Hk a Hp lo s1 b s') as (Hs' & Hq & Hnodes'); [lia| |done|].
  { intros o Ho. apply elem_of_app in Ho as [Ho|Ho]; [by apply Hnodes|].
    destruct (Hgiven o Ho) as [?|?]; [left; lia|by right]. }
  split; [lia|]. by split.
Qed.

Lemma made_mono {A : Type} (P Q : A -> Prop) nodes given given'
    (m : RenderM A) :
  made foreign P nodes given m ->
  (forall a, P a -> Q a) -> (forall o, o ∈ given -> o ∈ given') ->
  made foreign Q nodes given' m.
Proof.
  intros Hm Hpq Hsub lo s a s' Hlo Hgiven Hrun.
  destruct (Hm lo s a s' Hlo) as (Hs' & Hp & Hnodes); [|done|].
  { intros o Ho. by apply Hgiven, Hsub. }
  split; [done|]. split; [by apply Hpq|done].
Qed.

(** A call to a collaborator that leaves the inputs alone. *)
Lemma made_invoke {A : Type} (P : A -> Prop) nodes given call
    (c : Capability Dataset Ext A) :
  respects P c -> allocates foreign nodes given c ->
  made foreign P nodes given (invoke call c).
Proof.
  intros Hc Hnodes lo s a s' Hlo Hgiven Hrun.
  apply invoke_Returned in Hrun as [Hrun _].
  destruct (Hc (world s)) as (_ & Hal & Hp). rewrite Hrun in Hal, Hp.
  simpl in Hal, Hp. split; [done|]. split; [done|]. intros o Ho.
  pose proof (Hnodes (world s) o) as Hin. rewrite Hrun in Hin.
  destruct (Hin Ho) as [?|[Hg|?]]; [left; lia| |by right].
  destruct (Hgiven o Hg) as [?|?]; [left; lia|by right].
Qed.

(** The resolution of a class: the result has no node. *)
Lemma made_resolve {A : Type} (P Q : A -> Prop) given call
    (c : Capability Dataset Ext A) :
  respects P c -> resolves Q c ->
  made foreign (fun a => P a /\ Q a) none given (invoke call c).
Proof.
  intros Hc Hq lo s a s' Hlo Hgiven Hrun.
  apply invoke_Returned in Hrun as [Hrun _].
  destruct (Hc (world s)) as (_ & Hal & Hp). specialize (Hq (world s)).
  rewrite Hrun in Hal, Hp, Hq. simpl in Hal, Hp, Hq.
  split; [done|]. split; [done|]. intros o Ho. by apply elem_of_nil in Ho.
Qed.

(** A new group, whose children are given. *)
Lemma made_makeGroup given elements :
  (forall o, o ∈ children_nodes elements -> o ∈ given \/ foreign o) ->
  made foreign any Group_nodes given (@makeGroup Dataset Ext elements).
Proof.
  intros Hchildren lo s g s' Hlo Hgiven Hrun.
  rewrite makeGroup_run in Hrun. injection Hrun as <- <-.
  split; [simpl; lia|]. split; [done|]. intros o Ho.
  rewrite Group_nodes_eq in Ho.
  apply elem_of_cons in Ho as [->|Ho]; [left; simpl; lia|].
  destruct (Hchildren o Ho) as [Hg|?]; [|by right].
  destruct (Hgiven o Hg) as [?|?]; [left; simpl; lia|by right].
Qed.

Lemma made_mapR {A B : Type} (nodes : B -> list nat) given
    (f : A -> RenderM B) (l : list A) :
  (forall a, a ∈ l -> made foreign any nodes given (f a)) ->
  made foreign any (fun bs => concat (map nodes bs)) given (mapR f l).
Proof.
  induction l as [|a l IH]; intros Hf; simpl.
  - apply made_ret; [done|]. intros o Ho. by apply elem_of_nil in Ho.
  - eapply made_bind; [apply Hf; left|]. intros b _.
    eapply made_bind.
    + eapply made_mono; [apply IH| |].
      * intros a' Ha'. apply Hf. by right.
      * done.
      * intros o Ho. apply elem_of_app. by right.
    + intros bs _. apply made_ret; [done|]. intros o Ho. simpl in Ho.
      left. rewrite !elem_of_app. apply elem_of_app in Ho. tauto.
Qed.

Lemma made_foldR {A B : Type} (nodes : B -> list nat)
    (f : B -> A -> RenderM B) (l : list A) (b : B) :
  (forall b a, made foreign any nodes (nodes b) (f b a)) ->
  made foreign any nodes (nodes b) (foldR f l b).
Proof.
  intros Hf. revert b. induction l as [|a l IH]; intros b; simpl.
  - apply made_ret; [done|]. intros o Ho. by left.
  - eapply made_bind; [apply Hf|]. intros b' _.
    eapply made_mono; [apply IH|done|].
    intros o Ho. apply elem_of_app. by left.
Qed.

End Made.

(** * The renderer returns the nodes it allocates *)

Section Allocating.
Context {Dataset Ext : Type}.
Variable foreign : nat -> Prop.
Variable isType : string -> string -> bool.
Variable this : ChartRenderer Dataset Ext.
Hypothesis Hrespects : ChartRenderer_respects this.
Hypothesis Hallocates : ChartRenderer_allocates foreign this.
Implicit Types (s : Store Dataset Ext).
#[local] Abbreviation any := (fun _ => True).

Lemma renderGlyphMarks_slot_made ps pss cs offset state index pair :
  made foreign any (fun slot => child_nodes (Graphics.child slot)) []
    (renderGlyphMarks_slot this ps pss cs offset state index pair).
Proof.
  destruct Hrespects as (_ & Hmark & _).
  destruct Hallocates as (_ & Hmark' & _).
  destruct pair as [mark markState]. unfold renderGlyphMarks_slot.
  destruct (negb _).
  { apply made_ret; [done|]. intros o Ho. by apply elem_of_nil in Ho. }
  eapply made_bind; [by apply made_resolve|]. intros cls [Hcls Hcls'].
  eapply made_bind.
  { apply made_invoke; [apply Hcls|].
    eapply (Hcls' cs offset (Some index)). }
  intros [g|] _.
  - eapply made_bind.
    + apply made_makeGroup. intros o Ho. left.
      unfold children_nodes in Ho. simpl in Ho.
      rewrite app_nil_r, Element_nodes_set_selectable in Ho.
      rewrite !elem_of_app. by left.
    + intros group _. apply made_ret; [done|]. intros o Ho. left.
      rewrite !elem_of_app. by left.
  - apply made_ret; [done|]. intros o Ho. by apply elem_of_nil in Ho.
Qed.

Lemma renderGlyphMarks_made ps pss cs offset glyph state index :
  made foreign any slots_nodes []
    (renderGlyphMarks this ps pss cs offset glyph state index).
Proof.
  unfold renderGlyphMarks. destruct glyph as [glyph|]; [|apply made_throw].
  eapply made_mono;
    [apply (made_mapR foreign (fun slot => child_nodes (Graphics.child slot)))
    |done|done].
  intros pair _. apply renderGlyphMarks_slot_made.
Qed.

Lemma renderChart_glyph_made ps pss cs mark entry :
  made foreign any slots_nodes []
    (renderChart_glyph this ps pss cs mark entry).
Proof.
  destruct entry as [glyphIndex glyphState]. unfold renderChart_glyph.
  destruct (_ !! 0); [apply renderGlyphMarks_made|apply made_throw].
Qed.

Lemma renderChart_glyphArrays_made ps pss cs mark :
  made foreign any (fun arrays => concat (map slots_nodes arrays)) []
    (renderChart_glyphArrays this ps pss cs mark).
Proof.
  unfold renderChart_glyphArrays. apply made_mapR.
  intros entry _. apply renderChart_glyph_made.
Qed.

Lemma renderChart_glyphLayers_made cs glyphArrays :
  made foreign any Group_nodes (concat (map slots_nodes glyphArrays))
    (@renderChart_glyphLayers Dataset Ext cs glyphArrays).
Proof.
  unfold renderChart_glyphLayers.
  eapply made_bind.
  { apply (made_mapR foreign Group_nodes). intros layer Hlayer.
    apply made_makeGroup. intros o Ho. left.
    apply elem_of_children_nodes in Ho as (c & Hc & Ho).
    apply list_elem_of_fmap in Hc as (slot & -> & Hslot).
    destruct (transpose_slots _ _ _ _ Hlayer Hslot) as [->|(row & Hrow & Hin)];
      [by apply elem_of_nil in Ho|].
    apply elem_of_concat_map. exists row. split; [done|].
    apply elem_of_concat_map. by exists slot. }
  intros glyphElements _.
  eapply made_bind.
  { apply made_makeGroup. intros o Ho. left.
    apply elem_of_children_nodes in Ho as (c & Hc & Ho).
    apply list_elem_of_fmap in Hc as (layer & -> & Hlayer).
    apply elem_of_app. left. apply elem_of_concat_map. by exists layer. }
  intros gGlyphs _. apply made_ret; [done|]. intros o Ho. left.
  rewrite Group_nodes_set_transform in Ho. apply elem_of_app. by left.
Qed.

Lemma renderChart_plotSegment_made chart element elementState :
  made foreign any Group_nodes []
    (renderChart_plotSegment this chart element elementState).
Proof.
  destruct Hrespects as (_ & _ & Hplot & _).
  destruct Hallocates as (_ & _ & Hplot' & _).
  unfold renderChart_plotSegment.
  eapply made_bind; [by apply made_resolve|].
  intros cls [(Hcs & Hgraphics & Hbackground) [Hgraphics' Hbackground']].
  eapply made_bind.
  { apply (made_invoke foreign any (fun _ => [])); [apply Hcs|].
    intros w o. destruct (getCoordinateSystem cls w) as [[a|] w']; [|done].
    intros Ho. by apply elem_of_nil in Ho. }
  intros coordinateSystem _.
  eapply made_bind.
  { eapply made_mono; [apply renderChart_glyphArrays_made|done|].
    intros o Ho. by apply elem_of_nil in Ho. }
  intros glyphArrays _.
  eapply made_bind.
  { eapply made_mono; [apply renderChart_glyphLayers_made|done|].
    intros o Ho. apply elem_of_app. by left. }
  intros gGlyphs _.
  eapply made_bind.
  { eapply made_mono;
      [apply made_invoke; [apply Hgraphics|apply Hgraphics']|done|].
    intros o Ho. apply elem_of_app. by left. }
  intros g _.
  eapply made_bind.
  { apply made_makeGroup. intros o Ho. by apply elem_of_nil in Ho. }
  intros gBackgroundElements _.
  eapply made_bind.
  { eapply made_mono;
      [apply made_invoke; [apply Hbackground|apply Hbackground']|done|].
    intros o Ho. by apply elem_of_nil in Ho. }
  intros background _.
  eapply made_bind.
  { apply made_makeGroup. intros o Ho. by apply elem_of_nil in Ho. }
  intros gElement _. apply made_ret; [done|]. intros o Ho. left.
  rewrite Group_nodes_set_key, !Group_nodes_push in Ho. simpl in Ho.
  rewrite Group_nodes_push in Ho. simpl in Ho.
  rewrite !elem_of_app in *. tauto.
Qed.

Lemma renderChart_mark_made element elementState :
  made foreign any Group_nodes [] (renderChart_mark this element elementState).
Proof.
  destruct Hrespects as (_ & Hmark & _).
  destruct Hallocates as (_ & Hmark' & _).
  unfold renderChart_mark.
  eapply made_bind.
  { apply made_makeGroup. intros o Ho. by apply elem_of_nil in Ho. }
  intros gElement _.
  eapply made_bind; [by apply made_resolve|]. intros cls [Hcls Hcls'].
  eapply made_bind.
  { eapply made_mono; [apply made_invoke; [apply Hcls|apply Hcls']|done|].
    intros o Ho. by apply elem_of_nil in Ho. }
  intros g _. apply made_ret; [done|]. intros o Ho. left.
  rewrite Group_nodes_set_key, Group_nodes_push in Ho.
  rewrite !elem_of_app in *. tauto.
Qed.

Lemma renderChart_chartElement_made element elementState :
  made foreign any Group_nodes []
    (renderChart_chartElement this element elementState).
Proof.
  destruct Hrespects as (_ & _ & _ & Helement & _).
  destruct Hallocates as (_ & _ & _ & Helement').
  unfold renderChart_chartElement.
  eapply made_bind.
  { apply made_makeGroup. intros o Ho. by apply elem_of_nil in Ho. }
  intros gElement _.
  eapply made_bind; [by apply made_resolve|]. intros cls [Hcls Hcls'].
  eapply made_bind.
  { eapply made_mono; [apply made_invoke; [apply Hcls|apply Hcls']|done|].
    intros o Ho. by apply elem_of_nil in Ho. }
  intros g _. apply made_ret; [done|]. intros o Ho. left.
  rewrite Group_nodes_set_key, Group_nodes_push in Ho. simpl in Ho.
  rewrite !elem_of_app in *. tauto.
Qed.

Lemma renderChart_element_made chart graphics pair :
  made foreign any children_nodes (children_nodes graphics)
    (renderChart_element isType this chart graphics pair).
Proof.
  assert (Hpush : forall m : Render Dataset Ext Graphics.Group,
             made foreign any Group_nodes [] m ->
             made foreign any children_nodes (children_nodes graphics)
               (bind m (fun gElement =>
                          ret (graphics
                               ++ [Some (Graphics.GroupElement gElement)])))).
  { intros m Hm. eapply made_bind.
    - eapply made_mono; [exact Hm|done|].
      intros o Ho. by apply elem_of_nil in Ho.
    - intros gElement _. apply made_ret; [done|]. intros o Ho. left.
      rewrite children_nodes_app in Ho. unfold children_nodes at 2 in Ho.
      simpl in Ho. rewrite app_nil_r in Ho.
      rewrite !elem_of_app in *. tauto. }
  destruct pair as [element elementState]. unfold renderChart_element.
  destruct (negb _).
  { apply made_ret; [done|]. intros o Ho. by left. }
  destruct (isType _ "plot-segment"); [|destruct (isType _ "mark")];
    apply Hpush.
  - apply renderChart_plotSegment_made.
  - apply renderChart_mark_made.
  - apply renderChart_chartElement_made.
Qed.

(** Every node under the root that [renderChart] returns was allocated
    during the call, before the root, or is foreign. *)
Lemma renderChart_nodes dataset chart chartState s root s1 :
  renderChart isType this dataset chart chartState s = (Returned root, s1) ->
  forall o,
    o ∈ Group_nodes root ->
    allocated (world s) <= o <= Graphics.oid root \/ foreign o.
Proof.
  destruct Hrespects as (Hchart & _).
  destruct Hallocates as (Hchart' & _).
  intros Hrun. unfold renderChart in Hrun.
  apply bind_Returned in Hrun as (chartClass & sa & Hclass & Hrun).
  apply bind_Returned in Hrun as (bg & sb & Hbg & Hrun).
  apply bind_Returned in Hrun as (linkGroup & sc & Hlink & Hrun).
  apply bind_Returned in Hrun as (graphics & sd & Hloop & Hrun).
  set (lo := allocated (world s)).
  assert (Hnone : forall o : nat, o ∈ @nil nat ->
                    lo <= o < allocated (world s) \/ foreign o).
  { intros o Ho. by apply elem_of_nil in Ho. }
  destruct (made_resolve foreign _ _ [] _ _ (Hchart chartState)
              (Hchart' chartState) lo s _ _ (le_n _) Hnone Hclass)
    as (Ha & [Hcls Hcls'] & _).
  destruct (made_invoke foreign _ _ [] CallGetBackgroundGraphics _ Hcls Hcls'
              lo sa bg sb) as
    (Hb & _ & Hbgnodes); [done| |done|].
  { intros o Ho. by apply elem_of_nil in Ho. }
  rewrite makeGroup_run in Hlink. injection Hlink as <- <-.
  match type of Hloop with
  | foldR ?f ?l ?b ?s0 = _ =>
      destruct (made_foldR foreign children_nodes f l b
                  (renderChart_element_made chart) lo s0 graphics sd)
        as (Hd & _ & Hnodes); [simpl; lia| |exact Hloop|]
  end.
  { intros o Ho. rewrite children_nodes_app in Ho.
    apply elem_of_app in Ho as [Ho|Ho].
    - assert (Hbg' : o ∈ child_nodes bg).
      { destruct bg as [bg|]; [|by apply elem_of_nil in Ho].
        unfold children_nodes in Ho. simpl in Ho.
        by rewrite app_nil_r in Ho. }
      destruct (Hbgnodes o Hbg') as [?|?]; [left; simpl; lia|by right].
    - unfold children_nodes in Ho. simpl in Ho.
      apply list_elem_of_singleton in Ho as ->. left. simpl. lia. }
  rewrite makeGroup_run in Hrun. injection Hrun as <- _.
  intros o Ho. rewrite Group_nodes_eq in Ho. simpl in Ho, Hd. simpl.
  apply elem_of_cons in Ho as [->|Ho]; [left; lia|].
  destruct (Hnodes o Ho) as [?|?]; [left; lia|by right].
Qed.

End Allocating.

(** * The frame of a render call *)

Section Frame.
Context {Dataset Ext : Type}.
Variable isType : string -> string -> bool.
Variable this : ChartRenderer Dataset Ext.
Implicit Types (s : Store Dataset Ext).

Lemma invoke_framed {A : Type} (Q : A -> Prop) call
    (c : Capability Dataset Ext A) :
  respects Q c -> sat framed Q (invoke call c).
Proof.
  intros Hc s. unfold invoke. destruct (Hc (world s)) as (Hin & Hal & Hq).
  destruct (c (world s)) as [r w]. by repeat split.
Qed.

Lemma allocate_framed : sat framed (fun _ => True) (@allocate Dataset Ext).
Proof. intros s. repeat split. simpl. lia. Qed.

Lemma stepwise_framed : ChartRenderer_respects this -> stepwise framed this.
Proof.
  intros (Hchart & Hmark & Hplot & Helement & _).
  split; [apply allocate_framed|].
  split.
  { intros st. eapply sat_weaken; [apply invoke_framed, Hchart|].
    intros cls Hcls. by apply invoke_framed. }
  split.
  { intros st. eapply sat_weaken; [apply invoke_framed, Hmark|].
    intros cls Hcls ????. by apply invoke_framed. }
  split.
  { intros st. eapply sat_weaken; [apply invoke_framed, Hplot|].
    intros cls (Hcs & Hgraphics & Hbackground).
    (split; [|split]); intros; by apply invoke_framed. }
  intros st. eapply sat_weaken; [apply invoke_framed, Helement|].
  intros cls Hcls. by apply invoke_framed.
Qed.

(** The root group is the last node that [renderChart] allocates. *)
Lemma renderChart_root_fresh dataset chart chartState s root s1 :
  stepwise framed this ->
  renderChart isType this dataset chart chartState s = (Returned root, s1) ->
  allocated (world s) <= Graphics.oid root < allocated (world s1).
Proof.
  intros Hsteps Hrun. pose proof Hsteps as (_ & Hchart & _).
  unfold renderChart in Hrun.
  apply bind_Returned in Hrun as (chartClass & sa & Hclass & Hrun).
  apply bind_Returned in Hrun as (bg & sb & Hbg & Hrun).
  apply bind_Returned in Hrun as (linkGroup & sc & Hlink & Hrun).
  apply bind_Returned in Hrun as (graphics & sd & Hloop & Hrun).
  eapply sat_run in Hclass as [Ha Hcls]; [|apply Hchart].
  eapply sat_run in Hbg as [Hb _]; [|apply Hcls].
  eapply sat_run in Hlink as [Hc _];
    [|by apply (makeGroup_sat framed this)].
  eapply (sat_run framed (fun _ => True)) in Hloop as [Hd _].
  2:{ apply sat_foldR with (I := fun _ => True); [apply _| |done].
      intros ? ? _ _. apply (renderChart_element_sat framed isType this Hsteps). }
  apply proj2 in Ha, Hb, Hc, Hd.
  rewrite makeGroup_run in Hrun. injection Hrun as <- <-. simpl. lia.
Qed.

(** C9. With collaborators that leave the inputs alone and free no scene
    node, a call to [render] leaves the dataset, the chart and the chart
    state as they were, whether it returns or throws, and the root group it
    returns is a node allocated during the call. Every other group of the
    returned tree, at any depth, was allocated during the call as well, and
    before the root: the link group, the group of each element, the
    background, glyph-layer, layer and slot groups of a plot segment, and
    the groups inside the primitives of the collaborators, when these return
    only nodes that they allocate for the call; a node that a collaborator
    brings from elsewhere ([foreign]) is the only other node of the tree. *)
Theorem render_frame s :
  ChartRenderer_respects this ->
  dataset (world (render isType this s).2) = dataset (world s) /\
  chart (world (render isType this s).2) = chart (world s) /\
  chartState (world (render isType this s).2) = chartState (world s) /\
  forall root,
    (render isType this s).1 = Returned root ->
    allocated (world s) <= Graphics.oid root
    < allocated (world (render isType this s).2) /\
    forall foreign : nat -> Prop,
      ChartRenderer_allocates foreign this ->
      Forall
        (fun o => allocated (world s) <= o <= Graphics.oid root \/ foreign o)
        (Group_nodes root).
Proof.
  intros Hthis. pose proof (stepwise_framed Hthis) as Hsteps.
  pose proof Hthis as (_ & _ & _ & _ & Hcallback).
  rewrite render_run.
  destruct (renderChart isType this (dataset (world s)) (chart (world s))
              (chartState (world s)) s) as [r s1] eqn:Hrun.
  destruct (sat_run _ _ _ _ _ _
              (renderChart_sat framed isType this Hsteps _ _ _) Hrun)
    as [[Hinputs Hallocated] _].
  injection Hinputs as Hdataset Hchart HchartState.
  destruct r as [root|]; [|done].
  pose proof (renderChart_root_fresh _ _ _ _ _ _ Hsteps Hrun) as Hfresh.
  assert (Hnodes : forall foreign : nat -> Prop,
             ChartRenderer_allocates foreign this ->
             Forall
               (fun o =>
                  allocated (world s) <= o <= Graphics.oid root \/ foreign o)
               (Group_nodes root)).
  { intros foreign Hallocates. apply Forall_forall.
    by apply (renderChart_nodes foreign isType this Hthis Hallocates _ _ _ _
                _ _ Hrun). }
  unfold completionCallback.
  destruct (renderEvents this) as [events|] eqn:Hevents;
    [|simpl; do 3 (split; [done|]); intros ? [= <-]; split; [lia|done]].
  destruct (afterRendered events) as [callback|] eqn:Hafter;
    [|simpl; do 3 (split; [done|]); intros ? [= <-]; split; [lia|done]].
  destruct (Hcallback events callback eq_refl Hafter (world s1))
    as (Hin & Hal & _).
  injection Hin as Hdataset' Hchart' HchartState'.
  destruct (callback (world s1)) as [[[]|] w]; simpl in *;
    do 3 (split; [congruence|]); intros ? [= <-]; split; [lia|done].
Qed.

End Frame.

(** * The claims on the example chart *)

Section Examples.
Import Fixture.
#[local] Abbreviation cartesian := (Graphics.CartesianCoordinates origin).

(** The faceting example of the spec: first-seen order. *)
Example facetRows_example :
  facetRows rows1 [0; 1; 2] (Some ["c"]) = Some [[0; 2]; [1]].
Proof. vm_compute. reflexivity. Qed.

Example facetRows_no_columns_example :
  facetRows rows1 [0; 1; 2] None = Some [[0; 1; 2]].
Proof. reflexivity. Qed.

Lemma facetRows_partition_witness :
  Forall (fun i => i < length rows1) [0; 1; 2] /\
  exists groups,
    facetRows rows1 [0; 1; 2] (Some ["c"]) = Some groups /\
    (forall i, i ∈ [0; 1; 2] <-> exists g, g ∈ groups /\ i ∈ g) /\
    (forall a b ga gb i,
        groups !! a = Some ga -> groups !! b = Some gb ->
        i ∈ ga -> i ∈ gb -> a = b) /\
    concat groups ≡ₚ [0; 1; 2] /\
    (forall i j, i ∈ [0; 1; 2] -> j ∈ [0; 1; 2] ->
        (exists g, g ∈ groups /\ i ∈ g /\ j ∈ g) <->
        (forall c, c ∈ ["c"] -> cell rows1 i c = cell rows1 j c)) /\
    groups =
      map (fun k => filter (fun i => tuple rows1 ["c"] i = k) [0; 1; 2])
        (firstSeen (map (tuple rows1 ["c"]) [0; 1; 2])).
Proof.
  assert (Hrange : Forall (fun i => i < length rows1) [0; 1; 2])
    by (repeat constructor; simpl; lia).
  split; [exact Hrange|].
  exact (facetRows_partition rows1 [0; 1; 2] ["c"] Hrange).
Defined.

(** The plot segment of the example has two glyph instances of three
    marks: three layers of two slots. *)
Lemma renderChart_glyphLayers_transposed_witness :
  exists glyphArrays s1,
    renderChart_glyphArrays renderer plot plotState cartesian (Some glyph1)
      store1 = (Returned glyphArrays, s1) /\
    Forall (fun slots => length slots = 3) glyphArrays /\
    exists gGlyphs s2,
      renderChart_glyphLayers cartesian glyphArrays s1
      = (Returned gGlyphs, s2) /\
      Forall2
        (fun entry slots =>
           exists sa sb,
             renderChart_glyph renderer plot plotState cartesian
               (Some glyph1) entry sa = (Returned slots, sb))
        (entries (Specification.PlotSegmentState.glyphs plotState))
        glyphArrays /\
      (Specification.PlotSegmentState.glyphs plotState = [] ->
       Graphics.elements gGlyphs = []) /\
      (Specification.PlotSegmentState.glyphs plotState <> [] ->
       length (Graphics.elements gGlyphs) = 3 /\
       forall k, k < 3 ->
         exists layer,
           Graphics.elements gGlyphs !! k
           = Some (Some (Graphics.GroupElement layer)) /\
           Forall2
             (fun slots element =>
                exists slot,
                  slots !! k = Some slot /\ element = Graphics.child slot)
             glyphArrays (Graphics.elements layer)).
Proof.
  eexists _, _. split; [vm_compute; reflexivity|].
  split; [repeat constructor|].
  apply (renderChart_glyphLayers_transposed renderer plot plotState cartesian
           (Some glyph1) store1).
  - vm_compute. reflexivity.
  - repeat constructor.
Defined.

(** A plot segment without glyph instance: the glyph template has three
    marks, every instance (there is none) has a sequence of length three,
    and the glyph-layer group has no layer. *)
Lemma renderChart_glyphLayers_no_instance :
  length (Specification.Glyph.marks glyph1) = 3 /\
  renderChart_glyphArrays renderer plot emptyPlotState cartesian (Some glyph1)
    store1 = (Returned [], store1) /\
  Forall (fun slots : list (option Graphics.Group) => length slots = 3) [] /\
  exists gGlyphs s2,
    renderChart_glyphLayers cartesian [] store1 = (Returned gGlyphs, s2) /\
    Graphics.elements gGlyphs = [] /\
    length (Graphics.elements gGlyphs) <> 3.
Proof.
  split; [reflexivity|]. split; [reflexivity|]. split; [constructor|].
  eexists _, _. split; [reflexivity|]. split; [reflexivity|]. discriminate.
Qed.

(** The root of the example chart: the background, the link group, and the
    groups of the plot segment, the title and the guide; the legend is
    invisible. *)
Example renderChart_root_example :
  exists root s',
    renderChart isType renderer tt chart1 chartState1 store1
    = (Returned root, s') /\
    map (fun e => match e with
                  | Some (Graphics.GroupElement g) => Graphics.key g
                  | _ => None
                  end) (Graphics.elements root)
    = [None; None; Some "plot"; Some "title"; Some "guide"].
Proof. eexists _, _. split; vm_compute; reflexivity. Qed.

Lemma renderChart_root_witness :
  exists root s',
    length (Specification.Chart.elements chart1)
    = length (Specification.ChartState.elements chartState1) /\
    renderChart isType renderer tt chart1 chartState1 store1
    = (Returned root, s') /\
    exists chartClass w1 bg w2 linkGroup groups,
      getChartClass (manager renderer) chartState1 (world store1)
      = (Returned chartClass, w1) /\
      getBackgroundGraphics chartClass w1 = (Returned bg, w2) /\
      Graphics.elements root =
        match bg with Some bg => [Some bg] | None => [] end
        ++ [Some (Graphics.GroupElement linkGroup)]
        ++ map (fun g => Some (Graphics.GroupElement g)) groups /\
      Graphics.elements linkGroup = [] /\
      map Graphics.key groups =
        map (fun element => Some (Specification._id element))
          (List.filter
             (fun element =>
                Specification.visible (Specification.properties element))
             (Specification.Chart.elements chart1)).
Proof.
  eexists _, _. split; [reflexivity|]. split; [vm_compute; reflexivity|].
  eapply (renderChart_root isType renderer tt chart1 chartState1 store1).
  - reflexivity.
  - vm_compute. reflexivity.
Defined.

(** The first glyph instance of the example: the rectangle is drawn, the
    caption is invisible, the symbol's class draws nothing. *)
Example renderGlyphMarks_example :
  exists group s',
    renderGlyphMarks renderer plot plotState cartesian origin (Some glyph1)
      glyphState0 0 store1 = (Returned [Some group; None; None], s') /\
    calls s' =
      [CallGetMarkClass {| Specification.attributes := at_ 5 5 |};
       CallMarkGetGraphics rect cartesian origin (Some 0) None;
       CallGetMarkClass {| Specification.attributes := ∅ |};
       CallMarkGetGraphics rect cartesian origin (Some 0) None].
Proof. eexists _, _. split; vm_compute; reflexivity. Qed.



Lemma renderGlyphMarks_null_slots_witness :
  renderGlyphMarks_slot renderer plot plotState cartesian origin glyphState0
    0 (caption, {| Specification.attributes := at_ 6 6 |}) store1
  = (Returned None, store1) /\
  (renderGlyphMarks_slot renderer plot plotState cartesian origin glyphState0
     0 (dot, {| Specification.attributes := ∅ |}) store1).1
  = Returned None /\
  exists slots s',
    renderGlyphMarks renderer plot plotState cartesian origin (Some glyph1)
      glyphState0 0 store1 = (Returned slots, s') /\
    slots !! 1 = Some None.
Proof.
  destruct (renderGlyphMarks_null_slots renderer plot plotState cartesian
              origin glyphState0 0) as (Hinvisible & Hdeclined & Hplace).
  split; [apply Hinvisible; reflexivity|].
  split; [eapply Hdeclined; reflexivity|].
  eexists _, _. split; [vm_compute; reflexivity|].
  eapply (Hplace glyph1 store1); [vm_compute; reflexivity|reflexivity..].
Defined.


Example renderChart_glyph_calls :
  calls
    (renderChart_glyph renderer plot plotState cartesian (Some glyph1)
       (0, glyphState0) store1).2
  = [CallGetMarkClass {| Specification.attributes := at_ 5 5 |};
     CallMarkGetGraphics rect cartesian
       {| Graphics.x := 7; Graphics.y := 4 |} (Some 0) None;
     CallGetMarkClass {| Specification.attributes := ∅ |};
     CallMarkGetGraphics rect cartesian
       {| Graphics.x := 7; Graphics.y := 4 |} (Some 0) None].
Proof. vm_compute. reflexivity. Qed.

(** A chart without elements: the callback is the last of the calls. *)
Example render_completion_empty_chart :
  exists root s',
    render isType renderer emptyStore = (Returned root, s') /\
    length (Graphics.elements root) = 2 /\
    calls s' =
      [CallGetChartClass {| Specification.ChartState.elements := [] |};
       CallGetBackgroundGraphics; CallAfterRendered].
Proof. eexists _, _. split; [vm_compute; reflexivity|]. by split. Qed.

(** A manager that fails to resolve the chart class: no callback. *)
Example render_completion_failure :
  let failing :=
    {| manager :=
         {| getChartClass := fun _ w => (Thrown, w);
            getMarkClass := getMarkClass manager1;
            getPlotSegmentClass := getPlotSegmentClass manager1;
            getChartElementClass := getChartElementClass manager1 |};
       renderEvents := renderEvents renderer |} in
  render isType failing store1
  = (Thrown,
     {| world := world1; calls := [CallGetChartClass chartState1] |}).
Proof. reflexivity. Qed.

Lemma renderer_respects : ChartRenderer_respects renderer.
Proof.
  assert (Hserve : forall (A : Type) (Q : A -> Prop) (a : A),
             Q a -> respects Q (serve a)).
  { intros A Q a Ha w. simpl. by repeat split. }
  split; [intros st; apply Hserve; by apply Hserve|].
  split; [intros st; apply Hserve; intros ????; by apply Hserve|].
  split; [intros st; apply Hserve; (split; [|split]); intros;
          by apply Hserve|].
  split; [intros st; apply Hserve; by apply Hserve|].
  intros events callback [= <-] [= <-]. by apply Hserve.
Qed.

Lemma groupingRenderer_respects :
  ChartRenderer_respects Fixture3.groupingRenderer.
Proof.
  assert (Hserve : forall (A : Type) (Q : A -> Prop) (a : A),
             Q a -> respects Q (serve a)).
  { intros A Q a Ha w. simpl. by repeat split. }
  split.
  { intros st. apply Hserve. intros w. simpl. repeat split. lia. }
  split; [intros st; apply Hserve; intros ????; by apply Hserve|].
  split; [intros st; apply Hserve; (split; [|split]); intros;
          by apply Hserve|].
  split; [intros st; apply Hserve; by apply Hserve|].
  intros events callback [= <-] [= <-]. by apply Hserve.
Qed.

Lemma groupingRenderer_allocates :
  ChartRenderer_allocates (fun _ => False) Fixture3.groupingRenderer.
Proof.
  assert (Hserve : forall (A : Type) (Q : A -> Prop) (a : A),
             Q a -> resolves Q (serve a)).
  { intros A Q a Ha w. done. }
  assert (Hdraw : forall (A : Type) (nodes : A -> list nat) given (a : A),
             (forall o, o ∈ nodes a -> o ∈ given) ->
             allocates (fun _ => False) nodes given (serve a)).
  { intros A nodes given a Ha w o. simpl. intros Ho. right. left. auto. }
  split.
  { intros st. apply Hserve. intros w o. simpl. intros Ho.
    apply list_elem_of_singleton in Ho as ->. left. lia. }
  split.
  { intros st. apply Hserve. intros ????. apply Hdraw. intros o Ho.
    simpl in Ho. by destruct (_ !! "x"); apply elem_of_nil in Ho. }
  split.
  { intros st. apply Hserve. split; [intros g|]; apply Hdraw; [done|].
    intros o Ho. by apply elem_of_nil in Ho. }
  intros st. apply Hserve, Hdraw. intros o Ho. by apply elem_of_nil in Ho.
Qed.

(** The tree of the example, rendered with that renderer once five nodes
    were allocated: the background group of the chart class is node 5, the
    twelve groups of the renderer are the nodes 6 to 17, and the root is the
    last of them. *)
Example render_frame_nodes :
  exists root s',
    render isType Fixture3.groupingRenderer Fixture3.laterStore
    = (Returned root, s') /\
    Graphics.oid root = 17 /\
    Group_nodes root = [17; 5; 6; 14; 13; 12; 9; 7; 8; 10; 11; 15; 16] /\
    allocated (world s') = 18.
Proof. eexists _, _. split; [vm_compute; reflexivity|]. by repeat split. Qed.

Lemma render_frame_witness :
  ChartRenderer_respects Fixture3.groupingRenderer /\
  ChartRenderer_allocates (fun _ => False) Fixture3.groupingRenderer /\
  dataset
    (world (render isType Fixture3.groupingRenderer Fixture3.laterStore).2)
  = dataset (world Fixture3.laterStore) /\
  chart
    (world (render isType Fixture3.groupingRenderer Fixture3.laterStore).2)
  = chart (world Fixture3.laterStore) /\
  chartState
    (world (render isType Fixture3.groupingRenderer Fixture3.laterStore).2)
  = chartState (world Fixture3.laterStore) /\
  forall root,
    (render isType Fixture3.groupingRenderer Fixture3.laterStore).1
    = Returned root ->
    allocated (world Fixture3.laterStore) <= Graphics.oid root
    < allocated
        (world
           (render isType Fixture3.groupingRenderer Fixture3.laterStore).2) /\
    Forall
      (fun o =>
         allocated (world Fixture3.laterStore) <= o <= Graphics.oid root \/
         False)
      (Group_nodes root).
Proof.
  split; [exact groupingRenderer_respects|].
  split; [exact groupingRenderer_allocates|].
  destruct (render_frame isType Fixture3.groupingRenderer Fixture3.laterStore
              groupingRenderer_respects)
    as (Hdataset & Hchart & Hstate & Hroot).
  do 3 (split; [assumption|]). intros root Hrun.
  destruct (Hroot root Hrun) as [Hfresh Hnodes].
  split; [exact Hfresh|]. exact (Hnodes _ groupingRenderer_allocates).
Defined.

(** The title of the example is a mark whose class draws nothing: its group
    holds the null. *)
Lemma renderChart_element_mark_witness :
  Specification.visible (Specification.properties title) = true /\
  isType (Specification.classID title) "plot-segment" = false /\
  isType (Specification.classID title) "mark" = true /\
  exists elementClass w1 w2,
    getMarkClass (manager renderer) (Specification.asObjectState plainState)
      (world (afterAllocation store1)) = (Returned elementClass, w1) /\
    getGraphics elementClass cartesian origin None None w1
    = (Returned None, w2) /\
    renderChart_element isType renderer chart1 [] (title, plainState) store1
    = (Returned
         ([] ++
          [Some (Graphics.GroupElement
                   (Graphics.Build_Group (allocated (world store1)) [None]
                      None (Some (Specification._id title)) None))]),
       {| world := w2;
          calls :=
            calls store1 ++
            [CallGetMarkClass (Specification.asObjectState plainState);
             CallMarkGetGraphics (object elementClass) cartesian origin
               None None] |}).
Proof.
  split; [reflexivity|]. split; [reflexivity|]. split; [reflexivity|].
  eexists _, _, _. split; [reflexivity|]. split; [reflexivity|].
  eapply (renderChart_element_mark isType renderer chart1 [] title plainState
            store1); reflexivity.
Defined.

End Examples.

(** * Row faceting: failures, edge cases and composition *)

Lemma filter_all {A : Type} (P : A -> Prop) `{forall x, Decision (P x)}
    (l : list A) :
  (forall x, x ∈ l -> P x) -> filter P l = l.
Proof.
  induction l as [|a l IH]; intros Hl; [done|].
  rewrite filter_cons_True by (apply Hl; left).
  f_equal. apply IH. intros x Hx. apply Hl. by right.
Qed.

Lemma filter_not_nil {A : Type} (P : A -> Prop) `{forall x, Decision (P x)}
    (l : list A) (x : A) :
  x ∈ l -> P x -> filter P l <> [].
Proof.
  intros Hx HP Hnone.
  assert (Hin : x ∈ filter P l) by (by apply list_elem_of_filter).
  rewrite Hnone in Hin. by apply elem_of_nil in Hin.
Qed.

Lemma firstSeen_constant {A K : Type} `{EqDecision K} (f : A -> K) (k : K)
    (l : list A) :
  l <> [] -> (forall x, x ∈ l -> f x = k) -> firstSeen (map f l) = [k].
Proof.
  induction l as [|a l IH]; intros Hne Hl; [done|]. simpl.
  rewrite (Hl a) by left. f_equal.
  destruct l as [|b l]; [done|].
  rewrite IH; [|done|intros x Hx; apply Hl; by right].
  by rewrite filter_cons_False, filter_nil by (by intros Hk).
Qed.

Section FacetingEdges.
Context {Scalar : Type} `{EqDecision Scalar}.
Implicit Types (rows : list (gmap string Scalar)) (columns : list string).

Lemma facetValues_row (r : gmap string Scalar) columns :
  facetValues (Some r) columns = Some (map (fun c => r !! c) columns).
Proof.
  unfold facetValues. induction columns as [|c columns IH]; simpl; [done|].
  by rewrite IH.
Qed.

Lemma facetValues_no_row columns :
  facetValues (@None (gmap string Scalar)) columns =
  match columns with [] => Some [] | _ => None end.
Proof. by destruct columns. Qed.

(** The tuple read by the loop, whenever the read does not throw. *)
Lemma facetValues_Some_tuple rows columns index values :
  facetValues (rows !! index) columns = Some values ->
  values = tuple rows columns index.
Proof.
  unfold tuple, cell. destruct (rows !! index) as [r|].
  - rewrite facetValues_row. by intros [= <-].
  - rewrite facetValues_no_row. destruct columns; [|done]. by intros [= <-].
Qed.

Lemma facetValues_None_iff rows columns index :
  facetValues (rows !! index) columns = None <->
  columns <> [] /\ length rows <= index.
Proof.
  rewrite <- lookup_ge_None. destruct (rows !! index) as [r|].
  - rewrite facetValues_row. split; [done|]. by intros [_ ?].
  - rewrite facetValues_no_row. destruct columns; split; try done.
    by intros [? _].
Qed.

Lemma facetRows_loop_keyed rows columns (key : nat -> list (option Scalar))
    rest done :
  Forall (fun i => facetValues (rows !! i) columns = Some (key i)) rest ->
  facetRows_loop rows columns rest (facetsOf key done)
  = Some (facetsOf key (done ++ rest)).
Proof.
  intros Hrest. revert done.
  induction Hrest as [|index rest Hread _ IH]; intros done; simpl.
  - by rewrite app_nil_r.
  - rewrite Hread, facetsOf_step, IH. by rewrite <- app_assoc.
Qed.

Lemma facetRows_loop_reads rows columns indices facets facets' :
  facetRows_loop rows columns indices facets = Some facets' ->
  Forall
    (fun i => facetValues (rows !! i) columns = Some (tuple rows columns i))
    indices.
Proof.
  revert facets. induction indices as [|index rest IH]; intros facets; simpl;
    [constructor|].
  destruct (facetValues (rows !! index) columns) as [values|] eqn:Hread;
    [|done].
  intros Hloop. constructor; [|by eapply IH].
  by rewrite <- (facetValues_Some_tuple _ _ _ _ Hread).
Qed.

Lemma facetRows_loop_throws rows columns indices facets :
  Exists (fun i => facetValues (rows !! i) columns = None) indices ->
  facetRows_loop rows columns indices facets = None.
Proof.
  intros Hex. revert facets.
  induction Hex as [index rest Hread|index rest _ IH]; intros facets; simpl.
  - by rewrite Hread.
  - destruct (facetValues (rows !! index) columns); [apply IH|done].
Qed.

Lemma facetRows_keyed rows indices columns :
  Forall
    (fun i => facetValues (rows !! i) columns = Some (tuple rows columns i))
    indices ->
  facetRows rows indices (Some columns) =
  Some (map (fun k => filter (fun i => tuple rows columns i = k) indices)
          (firstSeen (map (tuple rows columns) indices))).
Proof.
  intros Hreads. unfold facetRows.
  change MultistringHashMap.empty with (facetsOf (tuple rows columns) []).
  rewrite facetRows_loop_keyed by done. simpl.
  unfold MultistringHashMap.values, facetsOf. by rewrite map_map.
Qed.

(** Whenever [facetRows] returns, every read succeeded and the groups have
    the closed form. *)
Lemma facetRows_Some_inv rows indices columns groups :
  facetRows rows indices (Some columns) = Some groups ->
  Forall
    (fun i => facetValues (rows !! i) columns = Some (tuple rows columns i))
    indices /\
  groups =
    map (fun k => filter (fun i => tuple rows columns i = k) indices)
      (firstSeen (map (tuple rows columns) indices)).
Proof.
  intros Hrun.
  assert (Hreads : Forall
            (fun i => facetValues (rows !! i) columns
                      = Some (tuple rows columns i)) indices).
  { unfold facetRows in Hrun.
    destruct (facetRows_loop rows columns indices MultistringHashMap.empty)
      as [facets|] eqn:Hloop; [|done].
    by eapply facetRows_loop_reads. }
  split; [done|]. rewrite (facetRows_keyed _ _ _ Hreads) in Hrun.
  by injection Hrun.
Qed.

Lemma group_inv (key : nat -> list (option Scalar)) (indices : list nat) g :
  g ∈ map (fun k => filter (fun i => key i = k) indices)
        (firstSeen (map key indices)) ->
  exists i, i ∈ indices /\ g = filter (fun j => key j = key i) indices.
Proof.
  intros Hg. apply list_elem_of_fmap in Hg as (k & -> & Hk).
  apply elem_of_firstSeen, list_elem_of_fmap in Hk as (i & -> & Hi). eauto.
Qed.

(** X1. With a list of columns, [facetRows] throws exactly when the list
    has a column and some index lies outside the row collection. *)
Theorem facetRows_throws_iff rows indices columns :
  facetRows rows indices (Some columns) = None <->
  columns <> [] /\ exists i, i ∈ indices /\ length rows <= i.
Proof.
  split.
  - intros Hrun.
    destruct (decide (Forall
                (fun i => facetValues (rows !! i) columns
                          = Some (tuple rows columns i)) indices))
      as [Hreads|Hreads].
    { by rewrite (facetRows_keyed _ _ _ Hreads) in Hrun. }
    apply not_Forall_Exists in Hreads; [|apply _].
    apply Exists_exists in Hreads as (i & Hi & Hread).
    destruct (facetValues (rows !! i) columns) as [values|] eqn:Hvalues.
    { destruct Hread. simpl. rewrite Hvalues. f_equal.
      by eapply facetValues_Some_tuple. }
    apply facetValues_None_iff in Hvalues as [? ?]. eauto.
  - intros (Hcolumns & i & Hi & Hout). unfold facetRows.
    rewrite facetRows_loop_throws; [done|].
    apply Exists_exists. exists i. split; [done|].
    by apply facetValues_None_iff.
Qed.

(** X2. With an empty list of columns no row is read: the indices come
    back as one group, and as no group at all when there is no index (where
    a call without columns returns one empty group). *)
Theorem facetRows_empty_columns rows indices :
  facetRows rows indices (Some []) =
  Some (match indices with [] => [] | _ => [indices] end).
Proof.
  rewrite facetRows_keyed.
  2:{ apply Forall_forall. intros i _.
      destruct (rows !! i); by rewrite ?facetValues_row, ?facetValues_no_row. }
  destruct indices as [|index rest]; [done|].
  rewrite (firstSeen_constant _ []) by done. simpl map.
  by rewrite filter_all.
Qed.

(** X3. Every group that [facetRows] returns has an index, and lists its
    indices in the order of the input: it is a sublist of the input. *)
Theorem facetRows_groups_sublists rows indices columns groups g :
  facetRows rows indices (Some columns) = Some groups ->
  g ∈ groups ->
  g <> [] /\ g `sublist_of` indices.
Proof.
  intros Hrun Hg. apply facetRows_Some_inv in Hrun as [_ ->].
  apply group_inv in Hg as (i & Hi & ->). split.
  - by apply (filter_not_nil _ _ i).
  - apply sublist_filter.
Qed.

(** X4. Faceting one of the returned groups again, by the same columns, gives
    back that group alone. *)
Theorem facetRows_refacet rows indices columns groups g :
  facetRows rows indices (Some columns) = Some groups ->
  g ∈ groups ->
  facetRows rows g (Some columns) = Some [g].
Proof.
  intros Hrun Hg. apply facetRows_Some_inv in Hrun as [Hreads ->].
  apply group_inv in Hg as (i & Hi & ->).
  set (g := filter (fun j => tuple rows columns j = tuple rows columns i)
              indices).
  assert (Hkeys : forall j, j ∈ g -> tuple rows columns j = tuple rows columns i).
  { intros j Hj. by apply list_elem_of_filter in Hj as [? _]. }
  assert (Hne : g <> []) by (by apply (filter_not_nil _ _ i)).
  rewrite facetRows_keyed.
  2:{ apply Forall_forall. intros j Hj.
      apply list_elem_of_filter in Hj as [_ Hj].
      by apply (proj1 (Forall_forall _ _) Hreads). }
  rewrite (firstSeen_constant _ (tuple rows columns i)) by done.
  simpl map. by rewrite filter_all.
Qed.

(** X5. Faceting by more columns refines the faceting: when [facetRows]
    returns for [columns ++ more], it returns for [columns] too, and every
    group of the former lies within one group of the latter. *)
Theorem facetRows_refines rows indices columns more fine :
  facetRows rows indices (Some (columns ++ more)) = Some fine ->
  exists coarse,
    facetRows rows indices (Some columns) = Some coarse /\
    forall g, g ∈ fine -> exists g', g' ∈ coarse /\ g ⊆ g'.
Proof.
  intros Hrun. apply facetRows_Some_inv in Hrun as [Hreads ->].
  assert (Hreads' : Forall
            (fun i => facetValues (rows !! i) columns
                      = Some (tuple rows columns i)) indices).
  { eapply Forall_impl; [exact Hreads|]. intros i Hread. simpl in Hread.
    destruct (facetValues (rows !! i) columns) as [values|] eqn:Hvalues.
    { f_equal. by eapply facetValues_Some_tuple. }
    apply facetValues_None_iff in Hvalues as [Hcolumns Hout].
    assert (Hnone : facetValues (rows !! i) (columns ++ more) = None).
    { apply facetValues_None_iff. split; [|done]. by destruct columns. }
    by rewrite Hnone in Hread. }
  eexists. split; [by apply facetRows_keyed|].
  intros g Hg. apply group_inv in Hg as (i & Hi & ->).
  exists (filter (fun j => tuple rows columns j = tuple rows columns i) indices).
  split.
  - apply list_elem_of_fmap. eexists. split; [reflexivity|].
    apply elem_of_firstSeen, list_elem_of_fmap. eauto.
  - intros j Hj. apply list_elem_of_filter in Hj as [Hkey Hj].
    apply list_elem_of_filter. split; [|done].
    unfold tuple in Hkey. rewrite !map_app in Hkey.
    apply app_inj_1 in Hkey as [Hkey _]; [done|]. by rewrite !length_map.
Qed.

End FacetingEdges.

(** * The renderer: what its loops do *)

Section LoopRuns.
Context {Dataset Ext : Type}.
Implicit Types (s : Store Dataset Ext).

Lemma bind_Thrown_l {A B : Type} (m : Render Dataset Ext A)
    (k : A -> Render Dataset Ext B) s :
  (m s).1 = Thrown -> (bind m k s).1 = Thrown.
Proof. unfold bind. by destruct (m s) as [[a|] s1]. Qed.

Lemma bind_Thrown_r {A B : Type} (m : Render Dataset Ext A)
    (k : A -> Render Dataset Ext B) s :
  (forall a s1, (k a s1).1 = Thrown) -> (bind m k s).1 = Thrown.
Proof. intros Hk. unfold bind. destruct (m s) as [[a|] s1]; [apply Hk|done]. Qed.

Lemma mapR_Thrown {A B : Type} (f : A -> Render Dataset Ext B) (l : list A) a :
  a ∈ l -> (forall s, (f a s).1 = Thrown) -> forall s, (mapR f l s).1 = Thrown.
Proof.
  intros Hin Hf. induction Hin as [a l|a a' l _ IH]; intros s; simpl.
  - apply bind_Thrown_l, Hf.
  - apply bind_Thrown_r. intros b s1. apply bind_Thrown_l. by apply IH.
Qed.

Lemma foldR_Thrown {A B : Type} (f : B -> A -> Render Dataset Ext B)
    (l : list A) a :
  a ∈ l -> (forall b s, (f b a s).1 = Thrown) ->
  forall b s, (foldR f l b s).1 = Thrown.
Proof.
  intros Hin Hf. induction Hin as [a l|a a' l _ IH]; intros b s; simpl.
  - apply bind_Thrown_l, Hf.
  - apply bind_Thrown_r. intros b' s1. by apply IH.
Qed.

Lemma mapR_length {A B : Type} (f : A -> Render Dataset Ext B) (l : list A)
    s bs s' :
  mapR f l s = (Returned bs, s') -> length bs = length l.
Proof.
  intros Hrun. apply mapR_Forall2 in Hrun. symmetry.
  by eapply Forall2_length.
Qed.

Section Returns.

Lemma returns_ret {A : Type} (Q : A -> Prop) (a : A) :
  Q a -> returns (Dataset := Dataset) (Ext := Ext) Q (ret a).
Proof. intros Ha s. by exists a, s. Qed.

Lemma returns_bind {A B : Type} (P : A -> Prop) (Q : B -> Prop)
    (m : Render Dataset Ext A) (k : A -> Render Dataset Ext B) :
  returns P m -> (forall a, P a -> returns Q (k a)) -> returns Q (bind m k).
Proof.
  intros Hm Hk s. destruct (Hm s) as (a & s1 & Hrun & Ha).
  destruct (Hk a Ha s1) as (b & s2 & Hrun' & Hb).
  exists b, s2. split; [|done]. unfold bind. by rewrite Hrun.
Qed.

Lemma returns_mapR {A B : Type} (f : A -> Render Dataset Ext B) (l : list A) :
  (forall a, a ∈ l -> returns (fun _ => True) (f a)) ->
  returns (fun _ => True) (mapR f l).
Proof.
  induction l as [|a l IH]; intros Hf; simpl; [by apply returns_ret|].
  eapply returns_bind; [apply Hf; left|]. intros b _.
  eapply returns_bind; [apply IH; intros a' Ha'; apply Hf; by right|].
  intros bs _. by apply returns_ret.
Qed.

Lemma returns_foldR {A B : Type} (f : B -> A -> Render Dataset Ext B)
    (l : list A) (b : B) :
  (forall b a, a ∈ l -> returns (fun _ => True) (f b a)) ->
  returns (fun _ => True) (foldR f l b).
Proof.
  revert b. induction l as [|a l IH]; intros b Hf; simpl;
    [by apply returns_ret|].
  eapply returns_bind; [apply Hf; left|]. intros b' _.
  apply IH. intros b'' a' Ha'. apply Hf. by right.
Qed.

Lemma returns_invoke {A : Type} (Q : A -> Prop) call
    (c : Capability Dataset Ext A) :
  answers Q c -> returns Q (invoke call c).
Proof.
  intros Hc s. destruct (Hc (world s)) as (a & w & Hrun & Ha).
  exists a. eexists. split; [by apply invoke_run|done].
Qed.

Lemma returns_makeGroup elements :
  returns (Dataset := Dataset) (Ext := Ext) (fun _ => True)
    (makeGroup elements).
Proof. intros s. eexists _, _. by rewrite makeGroup_run. Qed.

End Returns.
End LoopRuns.

Lemma entries_elem_of {A : Type} (l : list A) (x : A) :
  x ∈ l -> exists i, (i, x) ∈ entries l.
Proof.
  intros Hx. apply list_elem_of_lookup in Hx as [i Hi]. exists i.
  apply list_elem_of_lookup. exists i. unfold entries.
  apply lookup_zip_with_Some. exists i, x. split; [done|]. split; [|done].
  apply lookup_seq. split; [done|]. by eapply lookup_lt_Some.
Qed.

Lemma entries_elem_of_inv {A : Type} (l : list A) (i : nat) (x : A) :
  (i, x) ∈ entries l -> x ∈ l.
Proof.
  intros Hin. apply list_elem_of_lookup in Hin as [j Hj]. unfold entries in Hj.
  apply lookup_zip_with_Some in Hj as (i' & x' & [= -> ->] & _ & Hx).
  by eapply list_elem_of_lookup_2.
Qed.

Lemma zipArray_Forall_fst {A B : Type} (P : A -> Prop) (a : list A)
    (b : list B) :
  Forall P a -> Forall (fun pair => P pair.1) (Common.zipArray a b).
Proof.
  intros Ha. revert b. induction Ha as [|x a Hx _ IH]; intros [|y b]; simpl;
    try constructor; auto.
Qed.

Lemma zipArray_length {A B : Type} (a : list A) (b : list B) :
  length (Common.zipArray a b) = length a `min` length b.
Proof.
  revert b. induction a as [|x a IH]; intros [|y b]; simpl; try done.
  by rewrite IH.
Qed.

Section MoreGlyphMarks.
Context {Dataset Ext : Type}.
Variable this : ChartRenderer Dataset Ext.
Implicit Types (s : Store Dataset Ext).

(** X6. As the comment of [renderGlyphMarks] says, the sequence it returns
    has the size of [glyph.marks], for a glyph state that has one mark state
    per mark. *)
Theorem renderGlyphMarks_length plotSegment plotSegmentState coordinateSystem
    offset glyph state index s slots s' :
  length (Specification.Glyph.marks glyph)
  = length (Specification.GlyphState.marks state) ->
  renderGlyphMarks this plotSegment plotSegmentState coordinateSystem offset
    (Some glyph) state index s = (Returned slots, s') ->
  length slots = length (Specification.Glyph.marks glyph).
Proof.
  intros Haligned Hrun. unfold renderGlyphMarks in Hrun.
  apply mapR_length in Hrun. rewrite Hrun, zipArray_length. lia.
Qed.



End MoreGlyphMarks.

Section MoreChart.
Context {Dataset Ext : Type}.
Variable isType : string -> string -> bool.
Variable this : ChartRenderer Dataset Ext.
Implicit Types (s : Store Dataset Ext).

(** X8. The group of a plot segment, when it is built, has the plot
    segment's id as its key and two children: a group whose only child is
    the background graphics of the plot segment's class, then the graphics
    that the class made of the glyph-layer group. The glyph-layer group
    handed to the class carries the base transform of the coordinate system
    of the class, and is built from the mark-slot sequences of the glyph
    template found under the plot segment's glyph id. *)
Theorem renderChart_plotSegment_structure chart element elementState
    s gElement s' :
  renderChart_plotSegment this chart element elementState s
  = (Returned gElement, s') ->
  exists cls w1 coordinateSystem w2 glyphArrays sa sb gGlyphs sc g wg
         background wa wb gBackground,
    getPlotSegmentClass (manager this) elementState (world s)
    = (Returned cls, w1) /\
    getCoordinateSystem cls w1 = (Returned coordinateSystem, w2) /\
    renderChart_glyphArrays this element elementState coordinateSystem
      (Common.getById Specification.Glyph._id
         (Specification.Chart.glyphs chart) (Specification.glyph element))
      sa = (Returned glyphArrays, sb) /\
    renderChart_glyphLayers coordinateSystem glyphArrays sb
    = (Returned gGlyphs, sc) /\
    Graphics.transform gGlyphs
    = Some (Graphics.getBaseTransform coordinateSystem) /\
    getPlotSegmentGraphics cls gGlyphs (world sc) = (Returned g, wg) /\
    getPlotSegmentBackgroundGraphics cls wa = (Returned background, wb) /\
    Graphics.elements gElement
    = [Some (Graphics.GroupElement gBackground); Some g] /\
    Graphics.elements gBackground = [Some background] /\
    Graphics.key gElement = Some (Specification._id element) /\
    Graphics.key gBackground = None.
Proof.
  unfold renderChart_plotSegment. intros Hrun.
  apply bind_Returned in Hrun as (cls & s1 & Hcls & Hrun).
  apply bind_Returned in Hrun as (cs & s2 & Hcs & Hrun).
  apply bind_Returned in Hrun as (glyphArrays & s3 & Harrays & Hrun).
  apply bind_Returned in Hrun as (gGlyphs & s4 & Hlayers & Hrun).
  apply bind_Returned in Hrun as (g & s5 & Hg & Hrun).
  apply bind_Returned in Hrun as (gBackground & s6 & Hbackground & Hrun).
  apply bind_Returned in Hrun as (background & s7 & Hdraw & Hrun).
  apply bind_Returned in Hrun as (gElement' & s8 & Helement & Hrun).
  apply invoke_Returned in Hcls as [Hcls _].
  apply invoke_Returned in Hcs as [Hcs _].
  apply invoke_Returned in Hg as [Hg _].
  apply invoke_Returned in Hdraw as [Hdraw _].
  rewrite makeGroup_run in Hbackground. injection Hbackground as <- <-.
  rewrite makeGroup_run in Helement. injection Helement as <- <-.
  injection Hrun as <- _.
  exists cls, (world s1), cs, (world s2), glyphArrays, s2, s3, gGlyphs, s4, g.
  eexists (world s5), background, _, (world s7), _.
  split; [done|]. split; [done|]. split; [done|]. split; [done|].
  split.
  { unfold renderChart_glyphLayers in Hlayers.
    apply bind_Returned in Hlayers as (layers & t1 & _ & Hlayers).
    apply bind_Returned in Hlayers as (group & t2 & Hgroup & Hlayers).
    rewrite makeGroup_run in Hgroup. injection Hgroup as <- _.
    by injection Hlayers as <- _. }
  split; [done|]. split; [exact Hdraw|]. by repeat split.
Qed.

(** X9. For a visible chart element that is neither a plot segment nor a
    mark, the pass of the loop resolves the element's class from its state,
    asks it for its graphics, and pushes one group keyed by the element's id
    whose only child is what the class returned. *)
Theorem renderChart_element_chartElement chart graphics element elementState s
    elementClass w1 g w2 :
  Specification.visible (Specification.properties element) = true ->
  isType (Specification.classID element) "plot-segment" = false ->
  isType (Specification.classID element) "mark" = false ->
  getChartElementClass (manager this) elementState
    (world (afterAllocation s)) = (Returned elementClass, w1) ->
  getElementGraphics elementClass w1 = (Returned g, w2) ->
  renderChart_element isType this chart graphics (element, elementState) s
  = (Returned
       (graphics ++
        [Some (Graphics.GroupElement
                 (Graphics.Build_Group (allocated (world s)) [Some g] None
                    (Some (Specification._id element)) None))]),
     {| world := w2;
        calls :=
          calls s ++
          [CallGetChartElementClass elementState;
           CallChartElementGetGraphics] |}).
Proof.
  intros Hvisible Hplot Hmark Hclass Hg.
  unfold renderChart_element. rewrite Hvisible, Hplot, Hmark. simpl.
  unfold renderChart_chartElement.
  unfold bind at 1. unfold bind at 1. rewrite makeGroup_run.
  unfold bind at 1. rewrite (invoke_run _ _ _ _ _ Hclass).
  unfold bind at 1. erewrite invoke_run by exact Hg.
  unfold ret. simpl. by rewrite <- app_assoc.
Qed.

Lemma renderChart_loop_invisible chart pairs graphics s :
  Forall
    (fun pair : Specification.Object * Specification.PlotSegmentState.t =>
       Specification.visible (Specification.properties pair.1) = false)
    pairs ->
  foldR (renderChart_element isType this chart) pairs graphics s
  = (Returned graphics, s).
Proof.
  induction 1 as [|[element elementState] pairs Hinvisible _ IH]; simpl;
    [done|].
  unfold bind, renderChart_element. simpl in Hinvisible.
  by rewrite Hinvisible.
Qed.

(** X10. When no element of the chart is visible (there may be none),
    [renderChart] calls the manager for the chart class and the class for
    its background, and nothing else; the root it returns holds the
    background, when the class returned one, and the empty link group. *)
Theorem renderChart_all_invisible dataset chart chartState s chartClass w1
    bg w2 :
  Forall
    (fun element =>
       Specification.visible (Specification.properties element) = false)
    (Specification.Chart.elements chart) ->
  getChartClass (manager this) chartState (world s)
  = (Returned chartClass, w1) ->
  getBackgroundGraphics chartClass w1 = (Returned bg, w2) ->
  let s2 :=
    {| world := w2;
       calls :=
         calls s ++ [CallGetChartClass chartState; CallGetBackgroundGraphics]
    |} in
  renderChart isType this dataset chart chartState s
  = (Returned
       (Graphics.Build_Group (S (allocated w2))
          (match bg with Some bg => [Some bg] | None => [] end ++
           [Some (Graphics.GroupElement
                    (Graphics.Build_Group (allocated w2) [] None None None))])
          None None None),
     afterAllocation (afterAllocation s2)).
Proof.
  intros Hinvisible Hclass Hbg s2. unfold renderChart.
  unfold bind at 1. rewrite (invoke_run _ _ _ _ _ Hclass).
  unfold bind at 1. erewrite invoke_run by exact Hbg.
  unfold bind at 1. rewrite makeGroup_run.
  unfold bind at 1. rewrite renderChart_loop_invisible
    by (by apply (zipArray_Forall_fst
                    (fun element =>
                       Specification.visible
                         (Specification.properties element) = false))).
  rewrite makeGroup_run. simpl. unfold s2.
  rewrite <- app_assoc. by destruct bg.
Qed.

End MoreChart.

(** * When a render call throws, and when it returns *)

Section Failure.
Context {Dataset Ext : Type}.
Variable isType : string -> string -> bool.
Variable this : ChartRenderer Dataset Ext.
Implicit Types (s : Store Dataset Ext).

Lemma renderChart_glyph_unknown_glyph plotSegment plotSegmentState
    coordinateSystem entry s :
  (renderChart_glyph this plotSegment plotSegmentState coordinateSystem None
     entry s).1 = Thrown.
Proof.
  destruct entry as [glyphIndex glyphState]. unfold renderChart_glyph.
  by destruct (_ !! 0).
Qed.

Lemma renderChart_glyph_no_mark plotSegment plotSegmentState coordinateSystem
    mark glyphIndex glyphState s :
  Specification.GlyphState.marks glyphState = [] ->
  (renderChart_glyph this plotSegment plotSegmentState coordinateSystem mark
     (glyphIndex, glyphState) s).1 = Thrown.
Proof. intros Hnone. unfold renderChart_glyph. by rewrite Hnone. Qed.

Lemma renderChart_glyphArrays_undrawable chart plotSegment plotSegmentState
    coordinateSystem s :
  undrawable chart plotSegment plotSegmentState ->
  (renderChart_glyphArrays this plotSegment plotSegmentState coordinateSystem
     (Common.getById Specification.Glyph._id
        (Specification.Chart.glyphs chart) (Specification.glyph plotSegment))
     s).1 = Thrown.
Proof.
  unfold renderChart_glyphArrays.
  intros [[Hsome Hunknown]|(glyphState & Hin & Hnone)].
  - rewrite Hunknown.
    destruct (Specification.PlotSegmentState.glyphs plotSegmentState)
      as [|glyphState glyphs] eqn:Hglyphs; [done|].
    apply mapR_Thrown with (a := (0, glyphState)); [left|].
    intros s'. apply renderChart_glyph_unknown_glyph.
  - apply entries_elem_of in Hin as [glyphIndex Hin].
    apply mapR_Thrown with (a := (glyphIndex, glyphState)); [done|].
    intros s'. by apply renderChart_glyph_no_mark.
Qed.

Lemma renderChart_plotSegment_undrawable chart element elementState s :
  undrawable chart element elementState ->
  (renderChart_plotSegment this chart element elementState s).1 = Thrown.
Proof.
  intros Hundrawable. unfold renderChart_plotSegment.
  apply bind_Thrown_r. intros plotSegmentClass s1.
  apply bind_Thrown_r. intros coordinateSystem s2.
  apply bind_Thrown_l. by apply renderChart_glyphArrays_undrawable.
Qed.

Lemma renderChart_undrawable dataset chart chartState element elementState s :
  (element, elementState)
  ∈ Common.zipArray (Specification.Chart.elements chart)
      (Specification.ChartState.elements chartState) ->
  Specification.visible (Specification.properties element) = true ->
  isType (Specification.classID element) "plot-segment" = true ->
  undrawable chart element elementState ->
  (renderChart isType this dataset chart chartState s).1 = Thrown.
Proof.
  intros Hin Hvisible Hplot Hundrawable. unfold renderChart.
  apply bind_Thrown_r. intros chartClass s1.
  apply bind_Thrown_r. intros bg s2.
  apply bind_Thrown_r. intros linkGroup s3.
  apply bind_Thrown_l.
  apply foldR_Thrown with (a := (element, elementState)); [done|].
  intros graphics s'. unfold renderChart_element.
  rewrite Hvisible, Hplot. simpl.
  apply bind_Thrown_l. by apply renderChart_plotSegment_undrawable.
Qed.

(** X11. A render call throws, without calling the completion callback,
    whenever the chart has a visible plot segment that has glyph instances
    of an unknown glyph template or a glyph instance without mark state,
    whatever the collaborators do. *)
Theorem render_throws_undrawable s element elementState :
  (element, elementState)
  ∈ Common.zipArray (Specification.Chart.elements (chart (world s)))
      (Specification.ChartState.elements (chartState (world s))) ->
  Specification.visible (Specification.properties element) = true ->
  isType (Specification.classID element) "plot-segment" = true ->
  undrawable (chart (world s)) element elementState ->
  (render isType this s).1 = Thrown /\
  exists made,
    calls (render isType this s).2 = calls s ++ made /\
    CallAfterRendered ∉ made.
Proof.
  intros Hin Hvisible Hplot Hundrawable.
  pose proof (renderChart_undrawable (dataset (world s)) _ _ _ _ s
                Hin Hvisible Hplot Hundrawable) as Hthrown.
  rewrite render_run.
  destruct (renderChart isType this (dataset (world s)) (chart (world s))
              (chartState (world s)) s) as [r s1] eqn:Hrun.
  simpl in Hthrown. subst r. split; [done|].
  destruct (sat_run _ _ _ _ _ _
              (renderChart_sat (logged (fun call => call <> CallAfterRendered))
                 isType this (stepwise_logged _ _ (fun _ H => H)) _ _ _) Hrun)
    as [(made & Hmade & Hnone) _].
  exists made. split; [done|].
  intros Hcall. by apply (proj1 (Forall_forall _ _) Hnone) in Hcall.
Qed.

End Failure.

Section Success.
Context {Dataset Ext : Type}.
Variable isType : string -> string -> bool.
Variable this : ChartRenderer Dataset Ext.
Hypothesis Hanswers : ChartRenderer_answers this.
Implicit Types (s : Store Dataset Ext).

#[local] Abbreviation any := (fun _ => True).

Lemma renderGlyphMarks_returns plotSegment plotSegmentState coordinateSystem
    offset glyph state index :
  returns any
    (renderGlyphMarks this plotSegment plotSegmentState coordinateSystem
       offset (Some glyph) state index).
Proof.
  destruct Hanswers as (_ & Hmark & _).
  unfold renderGlyphMarks. apply returns_mapR. intros [mark markState] _.
  unfold renderGlyphMarks_slot.
  destruct (negb _); [by apply returns_ret|].
  eapply returns_bind; [apply returns_invoke, Hmark|]. intros cls Hcls.
  eapply returns_bind; [apply returns_invoke, Hcls|].
  intros [g|] _; [|by apply returns_ret].
  eapply returns_bind; [apply returns_makeGroup|]. intros group _.
  by apply returns_ret.
Qed.

Lemma renderChart_glyphArrays_returns chart plotSegment plotSegmentState
    coordinateSystem :
  drawable chart plotSegment plotSegmentState ->
  returns any
    (renderChart_glyphArrays this plotSegment plotSegmentState
       coordinateSystem
       (Common.getById Specification.Glyph._id
          (Specification.Chart.glyphs chart)
          (Specification.glyph plotSegment))).
Proof.
  intros [Hglyph Hmarks]. unfold renderChart_glyphArrays.
  apply returns_mapR. intros [glyphIndex glyphState] Hin.
  apply entries_elem_of_inv in Hin.
  destruct Hglyph as [Hnone|[glyph Hglyph]];
    [rewrite Hnone in Hin; by apply elem_of_nil in Hin|].
  rewrite Hglyph. unfold renderChart_glyph.
  destruct (Specification.GlyphState.marks glyphState) as [|mark0 marks]
    eqn:Hstate.
  { by apply (proj1 (Forall_forall _ _) Hmarks) in Hin. }
  simpl. apply renderGlyphMarks_returns.
Qed.

Lemma renderChart_glyphLayers_returns coordinateSystem glyphArrays :
  returns (Dataset := Dataset) (Ext := Ext) any
    (renderChart_glyphLayers coordinateSystem glyphArrays).
Proof.
  unfold renderChart_glyphLayers.
  eapply returns_bind.
  { apply returns_mapR. intros x _. apply returns_makeGroup. }
  intros glyphElements _.
  eapply returns_bind; [apply returns_makeGroup|]. intros gGlyphs _.
  by apply returns_ret.
Qed.

Lemma renderChart_element_returns chart graphics element elementState :
  (Specification.visible (Specification.properties element) = true ->
   isType (Specification.classID element) "plot-segment" = true ->
   drawable chart element elementState) ->
  returns any
    (renderChart_element isType this chart graphics (element, elementState)).
Proof.
  intros Hdrawable.
  destruct Hanswers as (_ & Hmark & Hplot & Helement & _).
  unfold renderChart_element.
  destruct (Specification.visible _); simpl; [|by apply returns_ret].
  destruct (isType _ "plot-segment"); [|destruct (isType _ "mark")].
  - apply returns_bind with (P := any);
      [|intros gElement _; by apply returns_ret].
    unfold renderChart_plotSegment.
    eapply returns_bind; [apply returns_invoke, Hplot|].
    intros cls (Hcs & Hgraphics & Hbackground).
    eapply returns_bind; [apply returns_invoke, Hcs|]. intros cs _.
    eapply returns_bind; [by apply renderChart_glyphArrays_returns, Hdrawable|].
    intros glyphArrays _.
    eapply returns_bind; [apply renderChart_glyphLayers_returns|].
    intros gGlyphs _.
    eapply returns_bind; [apply returns_invoke, Hgraphics|]. intros g _.
    eapply returns_bind; [apply returns_makeGroup|]. intros gBackground _.
    eapply returns_bind; [apply returns_invoke, Hbackground|].
    intros background _.
    eapply returns_bind; [apply returns_makeGroup|]. intros gElement _.
    by apply returns_ret.
  - apply returns_bind with (P := any);
      [|intros gElement _; by apply returns_ret].
    unfold renderChart_mark.
    eapply returns_bind; [apply returns_makeGroup|]. intros gElement _.
    eapply returns_bind; [apply returns_invoke, Hmark|]. intros cls Hcls.
    eapply returns_bind; [apply returns_invoke, Hcls|]. intros g _.
    by apply returns_ret.
  - apply returns_bind with (P := any);
      [|intros gElement _; by apply returns_ret].
    unfold renderChart_chartElement.
    eapply returns_bind; [apply returns_makeGroup|]. intros gElement _.
    eapply returns_bind; [apply returns_invoke, Helement|]. intros cls Hcls.
    eapply returns_bind; [apply returns_invoke, Hcls|]. intros g _.
    by apply returns_ret.
Qed.

(** X12. A render call returns a tree when no collaborator throws and
    every visible plot segment of the chart can be drawn: a glyph template is
    found under its glyph id unless it has no glyph instance, and each of
    its glyph instances has a mark state. *)
Theorem render_returns s :
  (forall element elementState,
      (element, elementState)
      ∈ Common.zipArray (Specification.Chart.elements (chart (world s)))
          (Specification.ChartState.elements (chartState (world s))) ->
      Specification.visible (Specification.properties element) = true ->
      isType (Specification.classID element) "plot-segment" = true ->
      drawable (chart (world s)) element elementState) ->
  exists root s', render isType this s = (Returned root, s').
Proof.
  intros Hdrawable.
  assert (Hchart : returns any
            (renderChart isType this (dataset (world s)) (chart (world s))
               (chartState (world s)))).
  { destruct Hanswers as (Hclass & _). unfold renderChart.
    eapply returns_bind; [apply returns_invoke, Hclass|]. intros cls Hcls.
    eapply returns_bind; [apply returns_invoke, Hcls|]. intros bg _.
    eapply returns_bind; [apply returns_makeGroup|]. intros linkGroup _.
    apply returns_bind with (P := any);
      [|intros graphics _; apply returns_makeGroup].
    apply returns_foldR. intros graphics [element elementState] Hin.
    apply renderChart_element_returns. intros Hvisible Hplot.
    by apply Hdrawable. }
  destruct (Hchart s) as (root & s1 & Hrun & _).
  rewrite render_run, Hrun.
  destruct Hanswers as (_ & _ & _ & _ & Hcallback).
  destruct (completionCallback this) as [callback|]; [|by eauto].
  destruct (Hcallback callback eq_refl (world s1)) as ([] & w & -> & _).
  by eauto.
Qed.

End Success.

(** * The further properties on the example charts *)

Section MoreExamples.
Import Fixture Fixture2.
#[local] Abbreviation cartesian := (Graphics.CartesianCoordinates origin).

Example facetRows_out_of_range :
  facetRows rows1 [0; 7] (Some ["c"]) = None /\
  facetRows rows1 [0; 7] (Some []) = Some [[0; 7]].
Proof. split; vm_compute; reflexivity. Qed.

Example facetRows_two_columns :
  facetRows rows2 [0; 1; 2; 3] (Some ["c"; "d"]) = Some [[0; 3]; [1]; [2]] /\
  facetRows rows2 [0; 1; 2; 3] (Some ["c"]) = Some [[0; 2; 3]; [1]].
Proof. split; vm_compute; reflexivity. Qed.

Lemma facetRows_groups_sublists_witness :
  facetRows rows2 [0; 1; 2; 3] (Some ["c"]) = Some [[0; 2; 3]; [1]] /\
  [0; 2; 3] ∈ [[0; 2; 3]; [1]] /\
  [0; 2; 3] <> [] /\ [0; 2; 3] `sublist_of` [0; 1; 2; 3].
Proof.
  assert (Hrun : facetRows rows2 [0; 1; 2; 3] (Some ["c"])
                 = Some [[0; 2; 3]; [1]]) by (vm_compute; reflexivity).
  assert (Hin : [0; 2; 3] ∈ [[0; 2; 3]; [1]]) by left.
  split; [exact Hrun|]. split; [exact Hin|].
  exact (facetRows_groups_sublists rows2 [0; 1; 2; 3] ["c"] _ _ Hrun Hin).
Defined.

Lemma facetRows_refacet_witness :
  facetRows rows2 [0; 1; 2; 3] (Some ["c"]) = Some [[0; 2; 3]; [1]] /\
  [0; 2; 3] ∈ [[0; 2; 3]; [1]] /\
  facetRows rows2 [0; 2; 3] (Some ["c"]) = Some [[0; 2; 3]].
Proof.
  assert (Hrun : facetRows rows2 [0; 1; 2; 3] (Some ["c"])
                 = Some [[0; 2; 3]; [1]]) by (vm_compute; reflexivity).
  assert (Hin : [0; 2; 3] ∈ [[0; 2; 3]; [1]]) by left.
  split; [exact Hrun|]. split; [exact Hin|].
  exact (facetRows_refacet rows2 [0; 1; 2; 3] ["c"] _ _ Hrun Hin).
Defined.

Lemma facetRows_refines_witness :
  facetRows rows2 [0; 1; 2; 3] (Some (["c"] ++ ["d"]))
  = Some [[0; 3]; [1]; [2]] /\
  exists coarse,
    facetRows rows2 [0; 1; 2; 3] (Some ["c"]) = Some coarse /\
    forall g, g ∈ [[0; 3]; [1]; [2]] -> exists g', g' ∈ coarse /\ g ⊆ g'.
Proof.
  assert (Hrun : facetRows rows2 [0; 1; 2; 3] (Some (["c"] ++ ["d"]))
                 = Some [[0; 3]; [1]; [2]]) by (vm_compute; reflexivity).
  split; [exact Hrun|].
  exact (facetRows_refines rows2 [0; 1; 2; 3] ["c"] ["d"] _ Hrun).
Defined.

Lemma renderGlyphMarks_length_witness :
  exists slots s',
    length (Specification.Glyph.marks glyph1)
    = length (Specification.GlyphState.marks glyphState0) /\
    renderGlyphMarks renderer plot plotState cartesian origin (Some glyph1)
      glyphState0 0 store1 = (Returned slots, s') /\
    length slots = length (Specification.Glyph.marks glyph1).
Proof.
  eexists _, _. split; [reflexivity|]. split; [vm_compute; reflexivity|].
  eapply (renderGlyphMarks_length renderer plot plotState cartesian origin
            glyph1 glyphState0 0 store1).
  - reflexivity.
  - vm_compute. reflexivity.
Defined.


Lemma renderChart_plotSegment_structure_witness :
  exists gElement s',
    renderChart_plotSegment renderer chart1 plot plotState store1
    = (Returned gElement, s') /\
    exists cls w1 coordinateSystem w2 glyphArrays sa sb gGlyphs sc g wg
           background wa wb gBackground,
      getPlotSegmentClass (manager renderer) plotState (world store1)
      = (Returned cls, w1) /\
      getCoordinateSystem cls w1 = (Returned coordinateSystem, w2) /\
      renderChart_glyphArrays renderer plot plotState coordinateSystem
        (Common.getById Specification.Glyph._id
           (Specification.Chart.glyphs chart1) (Specification.glyph plot))
        sa = (Returned glyphArrays, sb) /\
      renderChart_glyphLayers coordinateSystem glyphArrays sb
      = (Returned gGlyphs, sc) /\
      Graphics.transform gGlyphs
      = Some (Graphics.getBaseTransform coordinateSystem) /\
      getPlotSegmentGraphics cls gGlyphs (world sc) = (Returned g, wg) /\
      getPlotSegmentBackgroundGraphics cls wa = (Returned background, wb) /\
      Graphics.elements gElement
      = [Some (Graphics.GroupElement gBackground); Some g] /\
      Graphics.elements gBackground = [Some background] /\
      Graphics.key gElement = Some (Specification._id plot) /\
      Graphics.key gBackground = None.
Proof.
  eexists _, _. split; [vm_compute; reflexivity|].
  eapply (renderChart_plotSegment_structure renderer chart1 plot plotState
            store1).
  vm_compute. reflexivity.
Defined.

Lemma renderChart_element_chartElement_witness :
  Specification.visible (Specification.properties guide) = true /\
  isType (Specification.classID guide) "plot-segment" = false /\
  isType (Specification.classID guide) "mark" = false /\
  exists elementClass w1 g w2,
    getChartElementClass (manager renderer) plainState
      (world (afterAllocation store1)) = (Returned elementClass, w1) /\
    getElementGraphics elementClass w1 = (Returned g, w2) /\
    renderChart_element isType renderer chart1 [] (guide, plainState) store1
    = (Returned
         ([] ++
          [Some (Graphics.GroupElement
                   (Graphics.Build_Group (allocated (world store1)) [Some g]
                      None (Some (Specification._id guide)) None))]),
       {| world := w2;
          calls :=
            calls store1 ++
            [CallGetChartElementClass plainState;
             CallChartElementGetGraphics] |}).
Proof.
  split; [reflexivity|]. split; [reflexivity|]. split; [reflexivity|].
  eexists _, _, _, _. split; [reflexivity|]. split; [reflexivity|].
  eapply (renderChart_element_chartElement isType renderer chart1 [] guide
            plainState store1); reflexivity.
Defined.

Lemma renderChart_all_invisible_witness :
  Forall
    (fun element =>
       Specification.visible (Specification.properties element) = false)
    (Specification.Chart.elements hiddenChart) /\
  exists chartClass w1 bg w2,
    getChartClass (manager renderer) hiddenChartState (world store1)
    = (Returned chartClass, w1) /\
    getBackgroundGraphics chartClass w1 = (Returned bg, w2) /\
    let s2 :=
      {| world := w2;
         calls :=
           calls store1 ++
           [CallGetChartClass hiddenChartState; CallGetBackgroundGraphics]
      |} in
    renderChart isType renderer tt hiddenChart hiddenChartState store1
    = (Returned
         (Graphics.Build_Group (S (allocated w2))
            (match bg with Some bg => [Some bg] | None => [] end ++
             [Some (Graphics.GroupElement
                      (Graphics.Build_Group (allocated w2) [] None None
                         None))])
            None None None),
       afterAllocation (afterAllocation s2)).
Proof.
  assert (Hhidden : Forall
            (fun element =>
               Specification.visible (Specification.properties element)
               = false)
            (Specification.Chart.elements hiddenChart))
    by (repeat constructor).
  split; [exact Hhidden|].
  eexists _, _, _, _. split; [reflexivity|]. split; [reflexivity|].
  eapply (renderChart_all_invisible isType renderer tt hiddenChart
            hiddenChartState store1 _ _ _ _ Hhidden); reflexivity.
Defined.

Lemma render_throws_undrawable_witness :
  (plot, plotState)
  ∈ Common.zipArray (Specification.Chart.elements (chart (world brokenStore)))
      (Specification.ChartState.elements (chartState (world brokenStore))) /\
  Specification.visible (Specification.properties plot) = true /\
  isType (Specification.classID plot) "plot-segment" = true /\
  undrawable (chart (world brokenStore)) plot plotState /\
  (render isType renderer brokenStore).1 = Thrown /\
  exists made,
    calls (render isType renderer brokenStore).2
    = calls brokenStore ++ made /\
    CallAfterRendered ∉ made.
Proof.
  assert (Hin : (plot, plotState)
            ∈ Common.zipArray
                (Specification.Chart.elements (chart (world brokenStore)))
                (Specification.ChartState.elements
                   (chartState (world brokenStore)))) by left.
  assert (Hundrawable : undrawable (chart (world brokenStore)) plot plotState)
    by (left; split; [discriminate|reflexivity]).
  split; [exact Hin|]. split; [reflexivity|]. split; [reflexivity|].
  split; [exact Hundrawable|].
  exact (render_throws_undrawable isType renderer brokenStore plot plotState
           Hin eq_refl eq_refl Hundrawable).
Defined.

Example render_throws_undrawable_calls :
  render isType renderer brokenStore
  = (Thrown,
     {| world :=
          {| dataset := tt; chart := chart (world brokenStore);
             chartState := chartState (world brokenStore);
             allocated := 1; ext := 4 |};
        calls :=
          [CallGetChartClass (chartState (world brokenStore));
           CallGetBackgroundGraphics;
           CallGetPlotSegmentClass plotState;
           CallGetCoordinateSystem] |}).
Proof. vm_compute. reflexivity. Qed.

Lemma renderer_answers : ChartRenderer_answers renderer.
Proof.
  assert (Hserve : forall (A : Type) (Q : A -> Prop) (a : A),
             Q a -> answers Q (serve a)).
  { intros A Q a Ha w. by eexists _, _. }
  split; [intros st; apply Hserve; by apply Hserve|].
  split; [intros st; apply Hserve; intros ????; by apply Hserve|].
  split; [intros st; apply Hserve; (split; [|split]); intros;
          by apply Hserve|].
  split; [intros st; apply Hserve; by apply Hserve|].
  intros callback [= <-]. by apply Hserve.
Qed.

Lemma chart1_drawable element elementState :
  (element, elementState)
  ∈ Common.zipArray (Specification.Chart.elements (chart (world store1)))
      (Specification.ChartState.elements (chartState (world store1))) ->
  Specification.visible (Specification.properties element) = true ->
  isType (Specification.classID element) "plot-segment" = true ->
  drawable (chart (world store1)) element elementState.
Proof.
  simpl. rewrite !elem_of_cons, elem_of_nil.
  intros [[= -> ->]|[[= -> ->]|[[= -> ->]|[[= -> ->]|[]]]]] Hvisible Hplot;
    try discriminate.
  split; [right; by eexists|]. repeat constructor; discriminate.
Qed.

Lemma render_returns_witness :
  ChartRenderer_answers renderer /\
  (forall element elementState,
      (element, elementState)
      ∈ Common.zipArray (Specification.Chart.elements (chart (world store1)))
          (Specification.ChartState.elements (chartState (world store1))) ->
      Specification.visible (Specification.properties element) = true ->
      isType (Specification.classID element) "plot-segment" = true ->
      drawable (chart (world store1)) element elementState) /\
  exists root s', render isType renderer store1 = (Returned root, s').
Proof.
  split; [exact renderer_answers|]. split; [exact chart1_drawable|].
  exact (render_returns isType renderer renderer_answers store1
           chart1_drawable).
Defined.

End MoreExamples.
